(** * Cache-aside helpers

    A shallow embedding of the cache helpers: the query cache with its tag
    registry ([queryCache], [tagCacheKey], [bustCacheTag]), the batched
    entity cache ([createCachedArray], [createCachedObject]) and the counter
    cache ([cachedCounter]), over a model of the key-value store they talk
    to.

    Conventions.  Time is an integer number of milliseconds, as [Date.now()]
    gives it; expiries are given to the store in seconds, as the [EX] option
    and [expire] take them.  Every operation receives the instant [now] at
    which it runs and is taken to run at that one instant, its store
    operations in the order the code issues them.  Identifiers are integers,
    printed in decimal by template strings and [toString] ([pretty]).  The
    [log] calls are left out. *)

From Stdlib Require Import ZArith Lia.
From stdpp Require Import base option list strings pretty gmap.

Local Open Scope Z_scope.

(** ** The key-value store *)

Module Redis.

(** Modelled from the spec: the store client ([~/server/redis/client]) is not
    part of the sources.  A store maps a key to a value and an optional
    deadline, the instant (in milliseconds) at which the key expires.
    [redis.packed] is the same client with values encoded on the way in and
    decoded on the way out, so a packed value is kept decoded. *)
Abbreviation store V := (gmap string (V * option Z)).

Section primitives.
Context {V : Type}.
Implicit Types (st : store V) (k : string) (v : V) (now : Z).

(** Modelled from the spec: a key lives until its deadline, for ever when it
    has none. *)
Definition live now (d : option Z) : bool :=
  match d with
  | None => true
  | Some t => bool_decide (now < t)
  end.

(** Modelled from the spec: the entry of [k] as the store sees it at [now];
    a key whose deadline has passed is absent. *)
Definition peek now st k : option (V * option Z) :=
  match st !! k with
  | Some e => if live now e.2 then Some e else None
  | None => None
  end.

(** Modelled from the spec: [get] of the store client. *)
Definition get now st k : option V := fst <$> peek now st k.

(** Modelled from the spec: [mGet] of the store client (multi-get), one
    answer per key, in order. *)
Definition mGet now st (ks : list string) : list (option V) :=
  get now st <$> ks.

(** Modelled from the spec: [set(k, v, { EX })] of the store client
    (set-with-expiry).  The value replaces what the key holds, and the key
    expires [EX] seconds from now, never when [EX] is undefined. *)
Definition set now k v (EX : option Z) st : store V :=
  <[k := (v, (λ s, now + 1000 * s) <$> EX)]> st.

(** Modelled from the spec: [setNX] of the store client (set-if-not-exists),
    which takes no expiry. *)
Definition setNX now k v st : store V :=
  match peek now st k with
  | Some _ => st
  | None => <[k := (v, None)]> st
  end.

(** Modelled from the spec: [expire(k, seconds)] of the store client, which
    gives a key that exists a new deadline. *)
Definition expire now k (seconds : Z) st : store V :=
  match peek now st k with
  | Some e => <[k := (e.1, Some (now + 1000 * seconds))]> st
  | None => st
  end.

(** Modelled from the spec: [del] of the store client. *)
Definition del k st : store V := delete k st.

End primitives.
End Redis.

(** ** Values shared by the components *)

(** An argument of type [X | X[]]. *)
Inductive one_or_many (X : Type) := One (x : X) | Many (xs : list X).
Arguments One {X} x.
Arguments Many {X} xs.

(** [Array.isArray(x) ? x : [x]] *)
Definition to_array {X} (x : one_or_many X) : list X :=
  match x with
  | One x => [x]
  | Many xs => xs
  end.

(** lodash's [chunk(array, size)]: consecutive groups of [size] elements, the
    last one shorter when the length is not a multiple of [size]; no group at
    all when [size < 1]. *)
Fixpoint chunk_go {X} (fuel size : nat) (l : list X) : list (list X) :=
  match fuel, l with
  | O, _ | _, [] => []
  | S fuel, _ => take size l :: chunk_go fuel size (drop size l)
  end.

Definition chunk {X} (l : list X) (size : Z) : list (list X) :=
  if bool_decide (size < 1) then []
  else chunk_go (length l) (Z.to_nat size) l.

(** A JavaScript [Set] of numbers, in insertion order. *)
Definition Set_add (x : Z) (s : list Z) : list Z :=
  if decide (x ∈ s) then s else s ++ [x].

(** [new Set(xs)] *)
Definition new_Set (xs : list Z) : list Z :=
  foldl (λ s x, Set_add x s) [] xs.

(** ** The query cache and its tag registry *)

Module QueryCache.

(** What a key of the store holds: a packed query result, or the set of
    cache keys registered under a tag. *)
Inductive value (Row : Type) :=
  | Packed (rows : list Row)
  | Members (keys : gset string).
Arguments Packed {Row} rows.
Arguments Members {Row} keys.

Record cachedQueryOptions := {
  ttl : Z;
  tag : one_or_many string;
}.

(** Truthiness of [options?.tag]: the empty string is falsy, every array is
    truthy. *)
Definition tag_given (options : option cachedQueryOptions) : bool :=
  match tag <$> options with
  | None | Some (One EmptyString) => false
  | Some _ => true
  end.

Section queryCache.
Context {Query Row : Type}.

(** [hash q] stands for [hashifyObject(query).toString()], a helper of
    [~/utils/string-helpers]. *)
Variable hash : Query → string.

(** [db.$queryRaw]: the rows the data store answers with. *)
Variable db : Query → list Row.

Implicit Types (st : Redis.store (value Row)) (now : Z) (k : string).

(** Modelled from the spec: [redis.packed.get] of the store client, which
    decodes what [k] holds; the store refuses the read ([None]) when [k]
    holds a set. *)
Definition packed_get now st k : option (option (list Row)) :=
  match Redis.get now st k with
  | None => Some None
  | Some (Packed rows) => Some (Some rows)
  | Some (Members _) => None
  end.

(** Modelled from the spec: [redis.sAdd] of the store client (set-add); the
    set is created when [k] is absent, and the store refuses the write
    ([None]) when [k] holds something else than a set. *)
Definition sAdd now k (member : string) st : option (Redis.store (value Row)) :=
  match Redis.peek now st k with
  | None => Some (<[k := (Members {[member]}, None)]> st)
  | Some (Members s, d) => Some (<[k := (Members ({[member]} ∪ s), d)]> st)
  | Some (Packed _, _) => None
  end.

(** Modelled from the spec: [redis.packed.sMembers] of the store client
    (set-members-read); an absent key reads as the empty set, and the store
    refuses the read ([None]) when [k] holds something else than a set. *)
Definition sMembers now st k : option (list string) :=
  match Redis.get now st k with
  | None => Some []
  | Some (Members s) => Some (elements s)
  | Some (Packed _) => None
  end.

Definition tag_key (t : string) : string := "tag:" +:+ t.

Fixpoint tagCacheKey_loop now k (tags : list string) st
  : option (Redis.store (value Row)) :=
  match tags with
  | [] => Some st
  | t :: tags => st ← sAdd now (tag_key t) k st; tagCacheKey_loop now k tags st
  end.

Definition tagCacheKey now st k (tag : one_or_many string)
  : option (Redis.store (value Row)) :=
  let tags := to_array tag in
  tagCacheKey_loop now k tags st.

(** [bustCacheTag] returns the store it leaves and, in the order they were
    issued, the keys it asked the store to delete. *)
Fixpoint bustCacheTag_loop now (tags : list string) st (deleted : list string)
  : option (Redis.store (value Row) * list string) :=
  match tags with
  | [] => Some (st, deleted)
  | t :: tags =>
      keys ← sMembers now st (tag_key t);
      let st := foldl (λ st key, Redis.del key st) st keys in
      let st := Redis.del (tag_key t) st in
      bustCacheTag_loop now tags st (deleted ++ keys ++ [tag_key t])
  end.

Definition bustCacheTag now st (tag : one_or_many string)
  : option (Redis.store (value Row) * list string) :=
  let tags := to_array tag in
  bustCacheTag_loop now tags st [].

(** [[key, version, hash].filter(isDefined).join(':')] *)
Definition cache_key (key : string) (version : option string) (query : Query)
  : string :=
  String.concat ":" (omap (λ x, x) [Some key; version; Some (hash query)]).

(** The function [queryCache(db, key, version)] returns.  A call yields the
    rows, the store it leaves and the number of times the query was
    executed; [None] when the store refused an operation. *)
Definition queryCache (key : string) (version : option string)
    now st (query : Query) (options : option cachedQueryOptions)
  : option (list Row * Redis.store (value Row) * nat) :=
  if bool_decide (ttl <$> options = Some 0) then Some (db query, st, 1%nat)
  else
    let cacheKey := cache_key key version query in
    cachedData ← packed_get now st cacheKey;
    match cachedData, bool_decide (ttl <$> options ≠ Some 0) with
    | Some rows, true => Some (rows, st, 0%nat)
    | _, _ =>
        let result := db query in
        let st := Redis.set now cacheKey (Packed result) (ttl <$> options) st in
        st ← (if tag_given options
              then tagCacheKey now st cacheKey (default (One EmptyString) (tag <$> options))
              else Some st);
        Some (result, st, 1%nat)
    end.

End queryCache.
End QueryCache.

(** ** The batched entity cache *)

Module CachedArray.

(** A cached object, as [fetch] looks at it: the value of its [idKey]
    property, the envelope properties [notFound], [debounce] (by their
    truthiness) and [cachedAt] (a date in milliseconds, [None] when the
    property is undefined), and the properties of the entity itself, if it has
    any. *)
Record MixedObject (A : Type) := {
  ident : Z;
  entity : option A;
  notFound : bool;
  debounce : bool;
  cachedAt : option Z;
}.
Arguments ident {A} _.
Arguments entity {A} _.
Arguments notFound {A} _.
Arguments debounce {A} _.
Arguments cachedAt {A} _.

(** [{ ...x, cachedAt }] *)
Definition with_cachedAt {A} (x : MixedObject A) (t : Z) : MixedObject A :=
  {| ident := ident x; entity := entity x; notFound := notFound x;
     debounce := debounce x; cachedAt := Some t |}.

(** [{ [idKey]: id, notFound: true, cachedAt }] *)
Definition tombstone {A} (id : Z) (t : Z) : MixedObject A :=
  {| ident := id; entity := None; notFound := true; debounce := false;
     cachedAt := Some t |}.

(** [{ [idKey]: id, debounce: true }] *)
Definition debounce_marker {A} (id : Z) : MixedObject A :=
  {| ident := id; entity := None; notFound := false; debounce := true;
     cachedAt := None |}.

(** [cachedAt > cutoff] between a property and a date: an undefined property
    converts to [NaN], which compares false. *)
Definition later_than (cachedAt : option Z) (cutoff : Z) : bool :=
  match cachedAt with
  | Some t => bool_decide (cutoff < t)
  | None => false
  end.

(** [Object.fromEntries(xs.map((x) => [x[idKey], x]))]: a later entry replaces
    an earlier one of the same key.  The keys are kept as the integers they
    print. *)
Definition index_by_ident {A} (xs : list (MixedObject A)) : gmap Z (MixedObject A) :=
  foldl (λ m x, <[ident x := x]> m) ∅ xs.

(** The writes [fetch] sends to the store. *)
Inductive command (A : Type) :=
  | CSet (k : string) (v : MixedObject A) (EX : option Z)
  | CSetNX (k : string) (v : MixedObject A)
  | CExpire (k : string) (seconds : Z).
Arguments CSet {A} k v EX.
Arguments CSetNX {A} k v.
Arguments CExpire {A} k seconds.

Definition exec {A} (now : Z) (st : Redis.store (MixedObject A)) (c : command A)
  : Redis.store (MixedObject A) :=
  match c with
  | CSet k v EX => Redis.set now k v EX st
  | CSetNX k v => Redis.setNX now k v st
  | CExpire k seconds => Redis.expire now k seconds st
  end.

Definition command_key {A} (c : command A) : string :=
  match c with
  | CSet k _ _ | CSetNX k _ | CExpire k _ => k
  end.

(** The options of [createCachedArray].  [idKey] names the property that
    [ident] stands for.  The lookup collaborator is a function of the ids and
    of the [fromWrite] flag it is called with; the [Record<string, T>] it
    returns is kept as a map from the integers its keys print.  The append
    collaborator, which changes the result set in place, is a function from
    the set it is given to the set it leaves. *)
Record CachedLookupOptions (A : Type) := {
  key : string;
  lookupFn : list Z → option bool → gmap Z (MixedObject A);
  appendFn : option (list (MixedObject A) → list (MixedObject A));
  ttl : option Z;
  debounceTime : option Z;
  cacheNotFound : option bool;
}.
Arguments key {A} _.
Arguments lookupFn {A} _.
Arguments appendFn {A} _.
Arguments ttl {A} _.
Arguments debounceTime {A} _.
Arguments cacheNotFound {A} _.

(** The data store behind the lookup collaborator changes with time: a cache
    at a later instant is the same options with the collaborator as it
    answers then. *)
Definition with_lookupFn {A} (options : CachedLookupOptions A)
    (later : list Z → option bool → gmap Z (MixedObject A)) : CachedLookupOptions A :=
  {| key := key options; lookupFn := later; appendFn := appendFn options;
     ttl := ttl options; debounceTime := debounceTime options;
     cacheNotFound := cacheNotFound options |}.

(** What a call of [fetch] yields: the value it returns, the store it leaves,
    and the batches it passed to the lookup collaborator and to the store's
    multi-get, in order. *)
Record fetched (A R : Type) := {
  returned : R;
  store_after : Redis.store (MixedObject A);
  lookups : list (list Z);
  mGets : list (list string);
}.
Arguments returned {A R} _.
Arguments store_after {A R} _.
Arguments lookups {A R} _.
Arguments mGets {A R} _.

(** The object [createCachedArray] and [createCachedObject] return. *)
Record cached (A R : Type) := {
  fetch : Z → Redis.store (MixedObject A) → list Z → fetched A R;
  bust : Z → Redis.store (MixedObject A) → one_or_many Z → Redis.store (MixedObject A);
  refresh : Z → Redis.store (MixedObject A) → one_or_many Z →
            Redis.store (MixedObject A) * list (list Z);
}.
Arguments fetch {A R} _.
Arguments bust {A R} _.
Arguments refresh {A R} _.

Section createCachedArray.
Context {A : Type}.

(** [CacheTTL.xs] is a constant of [~/server/common/constants]. *)
Variable CacheTTL_xs : Z.
Variable options : CachedLookupOptions A.

Implicit Types (st : Redis.store (MixedObject A)) (now : Z) (id : Z).

(** The defaults of the destructured options. *)
Definition ttl_ : Z := default CacheTTL_xs (ttl options).
Definition debounceTime_ : Z := default 10 (debounceTime options).
Definition cacheNotFound_ : bool := default true (cacheNotFound options).

(** [`${key}:${id}`] *)
Definition entity_key id : string := key options +:+ ":" +:+ pretty id.

(** Lines 69-74: the cached objects of [ids], read in batches of 200 keys. *)
Definition read_batches (ids : list Z) : list (list string) :=
  (λ batch : list Z, entity_key <$> batch) <$> chunk ids 200.

Definition read_cache now st (ids : list Z) : list (MixedObject A) :=
  let cacheResults :=
    foldl (λ cacheResults batch,
             let batchResults := Redis.mGet now st batch in
             cacheResults ++ omap (λ x, x) batchResults)
          [] (read_batches ids) in
  let cacheArray := omap Some cacheResults in
  cacheArray.

(** Lines 76-90: one turn of the loop over the distinct ids.  The set
    [results] is kept as the list of its elements in insertion order.  A
    [Set] of objects tells them apart by identity: the objects decoded from
    the store are fresh ones, and those the lookups return under different ids
    are taken to be different objects, so that every [add] adds. *)
Record sorted := {
  results : list (MixedObject A);
  cacheMisses : list Z;
  dontCache : list Z;
}.

Definition sort_id (cache : gmap Z (MixedObject A)) (cacheDebounceCutoff : Z)
    (s : sorted) id : sorted :=
  match cache !! id with
  | Some cached =>
      if notFound cached then s
      else if debounce cached then
        {| results := results s;
           cacheMisses := Set_add id (cacheMisses s);
           dontCache := if later_than (cachedAt cached) cacheDebounceCutoff
                        then Set_add id (dontCache s) else dontCache s |}
      else
        {| results := results s ++ [cached];
           cacheMisses := cacheMisses s;
           dontCache := dontCache s |}
  | None =>
      {| results := results s;
         cacheMisses := Set_add id (cacheMisses s);
         dontCache := dontCache s |}
  end.

Definition sort_ids now (cacheArray : list (MixedObject A)) (ids : list Z) : sorted :=
  let cache := index_by_ident cacheArray in
  let cacheDebounceCutoff := now - debounceTime_ * 1000 in
  foldl (sort_id cache cacheDebounceCutoff)
        {| results := []; cacheMisses := []; dontCache := [] |}
        (new_Set ids).

(** Lines 98-103: the misses, looked up in batches of 10000 ids;
    [Object.assign] lets a later batch replace the entries of an earlier
    one. *)
Definition lookup_batches (misses : list Z) : list (list Z) :=
  chunk misses 10000.

Definition lookup_misses (misses : list Z) : gmap Z (MixedObject A) :=
  foldl (λ dbResults batch,
           let batchResults := lookupFn options batch None in
           batchResults ∪ dbResults)
        ∅ (lookup_batches misses).

(** Lines 105-116: one turn of the loop over the misses.  [toCache] and
    [toCacheNotFound] get one entry per miss at most and are kept as the list
    of their entries. *)
Record merged := {
  results' : list (MixedObject A);
  toCache : list (Z * MixedObject A);
  toCacheNotFound : list (Z * MixedObject A);
}.

Definition merge_id (dbResults : gmap Z (MixedObject A)) (dontCache : list Z)
    (cachedAt : Z) (m : merged) id : merged :=
  match dbResults !! id with
  | None =>
      {| results' := results' m;
         toCache := toCache m;
         toCacheNotFound :=
           if cacheNotFound_
           then toCacheNotFound m ++ [(id, tombstone id cachedAt)]
           else toCacheNotFound m |}
  | Some result =>
      {| results' := results' m ++ [result];
         toCache :=
           if bool_decide (id ∉ dontCache)
           then toCache m ++ [(id, with_cachedAt result cachedAt)]
           else toCache m;
         toCacheNotFound := toCacheNotFound m |}
  end.

(** Lines 119-135: the writes, in the order they are issued; the entries of
    [toCache] and of [toCacheNotFound] are taken in the order they were
    added. *)
Definition write_back (m : merged) : list (command A) :=
  ((λ e : Z * MixedObject A, CSet (entity_key e.1) e.2 (Some ttl_)) <$> toCache m)
  ++ mjoin ((λ e : Z * MixedObject A,
                [CSetNX (entity_key e.1) e.2; CExpire (entity_key e.1) ttl_])
             <$> toCacheNotFound m).

(** What [fetch] decides from what it read: the result set, the lookups it
    makes and the writes it sends. *)
Record plan := {
  found : list (MixedObject A);
  asked : list (list Z);
  writes : list (command A);
}.

Definition fetch_plan now (cacheArray : list (MixedObject A)) (ids : list Z) : plan :=
  let s := sort_ids now cacheArray ids in
  match cacheMisses s with
  | [] => {| found := results s; asked := []; writes := [] |}
  | _ :: _ =>
      let dbResults := lookup_misses (cacheMisses s) in
      let cachedAt := now in
      let m := foldl (merge_id dbResults (dontCache s) cachedAt)
                     {| results' := results s; toCache := []; toCacheNotFound := [] |}
                     (cacheMisses s) in
      {| found := results' m;
         asked := lookup_batches (cacheMisses s);
         writes := write_back m |}
  end.

Definition append_results (rs : list (MixedObject A)) : list (MixedObject A) :=
  match appendFn options with
  | Some f => f rs
  | None => rs
  end.

Definition array_fetch now st (ids : list Z) : fetched A (list (MixedObject A)) :=
  match ids with
  | [] => {| returned := []; store_after := st; lookups := []; mGets := [] |}
  | _ :: _ =>
      let p := fetch_plan now (read_cache now st ids) ids in
      {| returned := append_results (found p);
         store_after := foldl (exec now) st (writes p);
         lookups := asked p;
         mGets := read_batches ids |}
  end.


Definition array_bust now st (id : one_or_many Z) : Redis.store (MixedObject A) :=
  let ids := to_array id in
  match ids with
  | [] => st
  | _ :: _ =>
      foldl (λ st id,
               Redis.set now (entity_key id) (debounce_marker id) (Some debounceTime_) st)
            st ids
  end.

(** [refresh]: the [{ EX: ttl }] object is the second argument of [map], so
    [redis.packed.set] is called with a key and a value only. *)
Definition array_refresh now st (id : one_or_many Z)
  : Redis.store (MixedObject A) * list (list Z) :=
  let id := to_array id in
  let results := lookupFn options id (Some true) in
  let cachedAt := now in
  let st := foldl (λ st (e : Z * MixedObject A),
                     Redis.set now (entity_key e.1) (with_cachedAt e.2 cachedAt) None st)
                  st (map_to_list results) in
  let toRemove := filter (λ x, results !! x = None) id in
  (foldl (λ st id, Redis.del (entity_key id) st) st toRemove, [id]).

Definition createCachedArray : cached A (list (MixedObject A)) :=
  {| fetch := array_fetch; bust := array_bust; refresh := array_refresh |}.

(** [Object.fromEntries(results.map((x) => [x[idKey].toString(), x]))] *)
Definition object_fetch (cachedArray : cached A (list (MixedObject A)))
    now st (ids : list Z) : fetched A (gmap string (MixedObject A)) :=
  let r := fetch cachedArray now st ids in
  {| returned := foldl (λ o x, <[pretty (ident x) := x]> o) ∅ (returned r);
     store_after := store_after r;
     lookups := lookups r;
     mGets := mGets r |}.

(** [{ ...cachedArray, fetch }] *)
Definition createCachedObject : cached A (gmap string (MixedObject A)) :=
  let cachedArray := createCachedArray in
  {| fetch := object_fetch cachedArray;
     bust := bust cachedArray;
     refresh := refresh cachedArray |}.

End createCachedArray.
End CachedArray.

(** ** JS numbers that hold integers

    A count is a JS number, a double.  The model keeps a number that holds an
    integer as that integer, and writes out the rounding a double brings:
    [Number z] is the integer the double nearest to [z] holds, the one with
    the even significand when two are as near.  Every integer up to [2 ^ 53]
    in magnitude is its own double.  A double is finite below [2 ^ 1024]
    only: counts of that magnitude are outside the model. *)

Module JSNumber.

(** The double nearest to a positive integer [p]: [p] itself when it has at
    most 53 bits, else its 53 leading bits [q], rounded by the bits [r] that
    are left. *)
Definition nearest (p : Z) : Z :=
  let e := Z.log2 p - 52 in
  if bool_decide (e ≤ 0) then p
  else
    let q := p / 2 ^ e in
    let r := p mod 2 ^ e in
    let half := 2 ^ (e - 1) in
    let q' :=
      if bool_decide (r < half ∨ (r = half ∧ Z.even q = true)) then q else q + 1 in
    q' * 2 ^ e.

(** [Number(s)] of the decimal string [s] of the integer [z]. *)
Definition Number (z : Z) : Z := Z.sgn z * nearest (Z.abs z).

(** [x + y] of two numbers that hold integers: the double nearest to the
    sum. *)
Definition add (x y : Z) : Z := Number (x + y).

End JSNumber.

(** ** The counter cache *)

Module CachedCounter.
Import JSNumber.

(** The identifier of a counter is a string or a number. *)
Inductive id := Str (s : string) | Num (n : Z).

(** [`${id}`] *)
Definition id_to_string (i : id) : string :=
  match i with
  | Str s => s
  | Num n => pretty n
  end.

Record CachedCounterOptions := { ttl : option Z }.

Section cachedCounter.

(** [CacheTTL.hour] is a constant of [~/server/common/constants]. *)
Variable CacheTTL_hour : Z.
Variable rootKey : string.
Variable fetchFn : option (id → Z).
Variable options : CachedCounterOptions.

Implicit Types (st : Redis.store Z) (now : Z).

(** [ttl ??= CacheTTL.hour] *)
Definition ttl_ : Z := default CacheTTL_hour (ttl options).

(** [`${rootKey}:${id}`] *)
Definition counter_key (i : id) : string := rootKey +:+ ":" +:+ id_to_string i.

(** Modelled from the spec: [redis.incrBy] of the store client
    (atomic-increment); an absent key counts as [0] and a present one keeps
    its deadline. *)
Definition incrBy now k (amount : Z) st : Redis.store Z :=
  match Redis.peek now st k with
  | Some e => <[k := (e.1 + amount, e.2)]> st
  | None => <[k := (amount, None)]> st
  end.

(** The store keeps integers; [cachedCount] is [Number(...)] of what the key
    holds, [0] when it is absent.  The count of a miss is the JS number the
    fetch collaborator answers with: the double of the integer the model's
    function gives, which is that integer whenever a double holds it.  A call
    yields its value, the store it leaves and the number of calls it made to
    [fetchFn]. *)
Definition get now st (i : id) : Z * Redis.store Z * nat :=
  let key := counter_key i in
  let cachedCount := Number (default 0 (Redis.get now st key)) in
  if bool_decide (cachedCount ≠ 0) then (cachedCount, st, 0%nat)
  else
    match fetchFn with
    | Some f =>
        let count := Number (f i) in
        (count, Redis.set now key count (Some ttl_) st, 1%nat)
    | None =>
        let count := 0 in
        (count, Redis.set now key count (Some ttl_) st, 0%nat)
    end.

(** [amount] is a JS number: an integer a double holds.  The store adds it
    to the integer of the key, and the call returns [count + amount] as JS
    adds two numbers. *)
Definition incrementBy now st (i : id) (amount : option Z)
  : Z * Redis.store Z * nat :=
  let amount := default 1 amount in
  let key := counter_key i in
  let '(count, st, calls) := get now st i in
  (add count amount, incrBy now key amount st, calls).

Definition clear st (i : id) : Redis.store Z :=
  let key := counter_key i in
  Redis.del key st.

End cachedCounter.
End CachedCounter.

(** ** What [fetch] makes of a cached object

    The three outcomes of lines 80-89 for an id, given what the index of the
    cached objects holds for it: the object joins the results ([hit]), the id
    joins [cacheMisses] ([missed]), and it joins [dontCache] as well
    ([held]).  A tombstone is none of the three.  They are used to state what
    the loop of [sort_ids] computes. *)

Module Outcome.
Import CachedArray.

Definition hit {A} (cached : option (MixedObject A)) : option (MixedObject A) :=
  match cached with
  | Some x => if notFound x || debounce x then None else Some x
  | None => None
  end.

Definition missed {A} (cached : option (MixedObject A)) : bool :=
  match cached with
  | Some x => negb (notFound x) && debounce x
  | None => true
  end.

Definition held {A} (cutoff : Z) (cached : option (MixedObject A)) : bool :=
  match cached with
  | Some x => negb (notFound x) && debounce x && later_than (cachedAt x) cutoff
  | None => false
  end.

(** [{ ...x, cachedAt: undefined }]: an object without its time stamp. *)
Definition unstamped {A} (x : MixedObject A) : MixedObject A :=
  {| ident := ident x; entity := entity x; notFound := notFound x;
     debounce := debounce x; cachedAt := None |}.

(** Follows the spec, for comparison with [object_fetch]: "a mapping from
    stringified identifier to entity" of a result set.  What the mapping
    holds for a string is the entity whose identifier prints as that string,
    the last one of the result set when there are several. *)
Definition keyed_by_identifier {A} (results : list (MixedObject A)) (s : string)
  : option (MixedObject A) :=
  last (filter (λ x, pretty (ident x) = s) results).

(** The lookup collaborator answers id by id: what it returns for an id it is
    asked for does not depend on the other ids of the call, and it returns
    nothing for an id it is not asked for. *)
Definition answers_by_id {A} (options : CachedLookupOptions A)
    (table : Z → option (MixedObject A)) : Prop :=
  ∀ batch i,
    lookupFn options batch None !! i = if decide (i ∈ batch) then table i else None.

(** An entity as the lookup collaborator is expected to return it under the
    id [i]: it carries that id and has no truthy [notFound] or [debounce]
    property of its own. *)
Definition plain {A} (i : Z) (x : MixedObject A) : Prop :=
  ident x = i ∧ notFound x = false ∧ debounce x = false.

(** Two result sets hold the same entities: the same objects up to their
    time stamps, in any order. *)
Definition same_entities {A} (xs ys : list (MixedObject A)) : Prop :=
  unstamped <$> xs ≡ₚ unstamped <$> ys.

(** The live objects of [ids] carry the id of the key they are stored
    under. *)
Definition keyed {A} (options : CachedLookupOptions A) (now : Z)
    (st : Redis.store (MixedObject A)) (ids : list Z) : Prop :=
  ∀ i x, i ∈ ids → Redis.get now st (entity_key options i) = Some x → ident x = i.

(** The ids of [ids] that [fetch] takes for misses, and those among them it
    holds back from the cache, given the store it reads at [now]. *)
Definition misses_of {A} (options : CachedLookupOptions A) (now : Z)
    (st : Redis.store (MixedObject A)) (ids : list Z) : list Z :=
  filter (λ i, missed (Redis.get now st (entity_key options i)) : Prop)
         (new_Set ids).

Definition held_of {A} (options : CachedLookupOptions A) (now : Z)
    (st : Redis.store (MixedObject A)) (ids : list Z) : list Z :=
  filter (λ i, held (now - debounceTime_ options * 1000)
                 (Redis.get now st (entity_key options i)) : Prop)
         (new_Set ids).

(** The entries [toCache] and [toCacheNotFound] get for a miss, given what
    the lookups returned and the ids held back by a debounce. *)
Definition to_cache {A} (dbResults : gmap Z (MixedObject A)) (dont : list Z)
    (cachedAt : Z) (i : Z) : option (Z * MixedObject A) :=
  if decide (i ∈ dont) then None
  else (λ r, (i, with_cachedAt r cachedAt)) <$> (dbResults !! i).

Definition to_cache_not_found {A} (dbResults : gmap Z (MixedObject A))
    (cachedAt : Z) (i : Z) : option (Z * MixedObject A) :=
  match dbResults !! i with
  | Some _ => None
  | None => Some (i, tombstone i cachedAt)
  end.

End Outcome.

(** ** Concrete instances

    A query cache over queries named by strings, a cache of users with names,
    and the stores used to exercise them. *)

Module Examples.

Definition hash (query : string) : string := query.

Definition db (query : string) : list Z :=
  if decide (query = "banned") then [] else [1; 2].

Definition tagged : QueryCache.cachedQueryOptions :=
  {| QueryCache.ttl := 60; QueryCache.tag := One "T" |}.

(** The store after the results of the queries ["banned"] and ["active"] have
    been cached under the tag ["T"] at instant 0. *)
Definition two_tagged : Redis.store (QueryCache.value Z) :=
  <["tag:T" := (QueryCache.Members {["q:banned"; "q:active"]}, None)]>
    (<["q:active" := (QueryCache.Packed [1; 2], Some 60000)]>
       (<["q:banned" := (QueryCache.Packed [], Some 60000)]> ∅)).

Definition user (i : Z) (name : string) : CachedArray.MixedObject string :=
  {| CachedArray.ident := i; CachedArray.entity := Some name;
     CachedArray.notFound := false; CachedArray.debounce := false;
     CachedArray.cachedAt := None |}.

(** The users the data store knows: 1 and 3. *)
Definition users : gmap Z (CachedArray.MixedObject string) :=
  {[ 1 := user 1 "A"; 3 := user 3 "C" ]}.

Definition lookup_users (ids : list Z) (fromWrite : option bool)
  : gmap Z (CachedArray.MixedObject string) :=
  filter (λ e, e.1 ∈ ids) users.

(** A cache of users with the default options; [CacheTTL.xs] is taken to be
    a minute. *)
Definition xs : Z := 60.

Definition user_cache : CachedArray.CachedLookupOptions string :=
  {| CachedArray.key := "user"; CachedArray.lookupFn := lookup_users;
     CachedArray.appendFn := None; CachedArray.ttl := None;
     CachedArray.debounceTime := None; CachedArray.cacheNotFound := None |}.

(** The same cache with negative caching turned off. *)
Definition user_cache_no_tombstones : CachedArray.CachedLookupOptions string :=
  {| CachedArray.key := "user"; CachedArray.lookupFn := lookup_users;
     CachedArray.appendFn := None; CachedArray.ttl := None;
     CachedArray.debounceTime := None; CachedArray.cacheNotFound := Some false |}.

(** A store in which another caller has cached user 2. *)
Definition user_2_cached : Redis.store (CachedArray.MixedObject string) :=
  {[ "user:2" := (CachedArray.with_cachedAt (user 2 "B") 0, Some 5000) ]}.

End Examples.

(** ** An invariant of the entity cache *)

Module Invariant.
Import CachedArray.

(** Every object of the store that sits under the key of an id carries that
    id, whether its key has expired or not. *)
Definition well_keyed {A} (options : CachedLookupOptions A)
    (st : Redis.store (MixedObject A)) : Prop :=
  ∀ i x d, st !! entity_key options i = Some (x, d) → ident x = i.

End Invariant.

(** ** More concrete instances *)

Module MoreExamples.
Import CachedArray.


End MoreExamples.

(** * Properties *)

(** ** The store *)

Module RedisFacts.
Import Redis.

Section facts.
Context {V : Type}.
Implicit Types (st : store V) (k : string) (v : V) (now : Z).

Lemma peek_None now st k : st !! k = None → peek now st k = None.
Proof. unfold peek. by intros ->. Qed.

Lemma peek_Some now st k e :
  st !! k = Some e → live now e.2 = true → peek now st k = Some e.
Proof. unfold peek. by intros -> ->. Qed.

Lemma peek_inv now st k e :
  peek now st k = Some e → st !! k = Some e ∧ live now e.2 = true.
Proof.
  unfold peek. destruct (st !! k) as [e'|]; [|done].
  destruct (live now e'.2) eqn:E; naive_solver.
Qed.

Lemma get_None now st k : st !! k = None → get now st k = None.
Proof. unfold get. by intros ->%(peek_None now). Qed.

Lemma get_Some now st k v d :
  st !! k = Some (v, d) → live now d = true → get now st k = Some v.
Proof. intros H L. unfold get. by rewrite (peek_Some _ _ _ _ H L). Qed.

Lemma get_ext now st st' k : st !! k = st' !! k → get now st k = get now st' k.
Proof. unfold get, peek. by intros ->. Qed.

Lemma lookup_set now k v EX st k' :
  set now k v EX st !! k' =
  if decide (k = k') then Some (v, (λ s, now + 1000 * s) <$> EX) else st !! k'.
Proof. unfold set. apply lookup_insert. Qed.

Lemma lookup_set_ne now k v EX st k' :
  k ≠ k' → set now k v EX st !! k' = st !! k'.
Proof. intros. unfold set. by apply lookup_insert_ne. Qed.

Lemma lookup_setNX_ne now k v st k' :
  k ≠ k' → setNX now k v st !! k' = st !! k'.
Proof.
  intros. unfold setNX. destruct (peek now st k); [done|].
  by apply lookup_insert_ne.
Qed.

Lemma lookup_expire_ne now k s st k' :
  k ≠ k' → expire now k s st !! k' = st !! k'.
Proof.
  intros. unfold expire. destruct (peek now st k); [|done].
  by apply lookup_insert_ne.
Qed.

Lemma lookup_del_ne k st k' : k ≠ k' → del k st !! k' = st !! k'.
Proof. intros. unfold del. by apply lookup_delete_ne. Qed.

Lemma lookup_del k st : del k st !! k = None.
Proof. apply lookup_delete_eq. Qed.

Lemma live_fresh now s : 0 < s → live now (Some (now + 1000 * s)) = true.
Proof. intros. unfold live. apply bool_decide_eq_true. lia. Qed.

Lemma live_mono now now' d : now' ≤ now → live now d = true → live now' d = true.
Proof.
destruct d as [t|]; [|done]. unfold live.
intros ? ?%bool_decide_eq_true. apply bool_decide_eq_true. lia.
Qed.

Lemma peek_set now now' k v EX st :
  live now' ((λ s, now + 1000 * s) <$> EX) = true →
  peek now' (set now k v EX st) k = Some (v, (λ s, now + 1000 * s) <$> EX).
Proof.
  intros L. apply peek_Some; [|done]. rewrite lookup_set. by case_decide.
Qed.

Lemma lookup_setNX_expire now k v s st :
  expire now k s (setNX now k v st) !! k =
  Some (match peek now st k with Some e => e.1 | None => v end,
        Some (now + 1000 * s)).
Proof.
  unfold setNX. destruct (peek now st k) as [e|] eqn:E.
  - unfold expire. rewrite E. by rewrite lookup_insert_eq.
  - unfold expire. rewrite (peek_Some now _ k (v, None)).
    + by rewrite lookup_insert_eq.
    + by rewrite lookup_insert_eq.
    + done.
Qed.

End facts.
End RedisFacts.

(** ** Chunks and sets *)

Module Batches.

Section chunks.
Context {X : Type}.
Implicit Types (l : list X) (size fuel : nat).

Lemma chunk_go_concat fuel size l :
  (0 < size)%nat → (length l ≤ fuel)%nat → mjoin (chunk_go fuel size l) = l.
Proof.
  intros Hsize. revert l. induction fuel as [|fuel IH]; intros l Hl.
  - destruct l; [done | simpl in Hl; lia].
  - destruct l as [|x l]; [done|].
    change (take size (x :: l) ++ mjoin (chunk_go fuel size (drop size (x :: l)))
            = x :: l).
    rewrite IH; [apply take_drop|].
    rewrite length_drop. simpl in *. lia.
Qed.


Lemma chunk_go_nonempty fuel size l :
  (0 < size)%nat → Forall (λ batch, batch ≠ []) (chunk_go fuel size l).
Proof.
  intros Hsize. revert l. induction fuel as [|fuel IH]; intros l; [by destruct l|].
  destruct l as [|x l]; [done|].
  apply Forall_cons. split; [|apply IH].
  destruct size; [lia | done].
Qed.

Lemma chunk_concat l (size : Z) : 1 ≤ size → mjoin (chunk l size) = l.
Proof.
  intros Hsize. unfold chunk. rewrite bool_decide_eq_false_2 by lia.
  apply chunk_go_concat; lia.
Qed.


Lemma chunk_nil (size : Z) : chunk (@nil X) size = [].
Proof. unfold chunk. by case_bool_decide. Qed.

Lemma chunk_is_nil l (size : Z) : 1 ≤ size → chunk l size = [] → l = [].
Proof. intros Hsize E. rewrite <- (chunk_concat l size Hsize). by rewrite E. Qed.

Lemma chunk_singleton (x : X) (size : Z) : 1 ≤ size → chunk [x] size = [[x]].
Proof.
  intros Hsize. unfold chunk. rewrite bool_decide_eq_false_2 by lia.
  destruct (Z.to_nat size) as [|n] eqn:E; [lia|].
  simpl. by rewrite take_nil.
Qed.

End chunks.

Lemma foldl_Set_add acc l :
  NoDup (acc ++ l) → foldl (λ s x, Set_add x s) acc l = acc ++ l.
Proof.
  revert acc. induction l as [|x l IH]; intros acc Hnd; simpl.
  - by rewrite app_nil_r.
  - assert (x ∉ acc) as Hx.
    { apply NoDup_app in Hnd as (_ & Hnd & _). intros Hin.
      apply (Hnd x Hin). left. }
    unfold Set_add at 2. rewrite decide_False by done.
    rewrite IH; [by rewrite <- app_assoc|].
    by rewrite <- app_assoc.
Qed.

Lemma foldl_Set_add_spec acc l :
  NoDup acc →
  NoDup (foldl (λ s x, Set_add x s) acc l)
  ∧ ∀ x, x ∈ foldl (λ s x, Set_add x s) acc l ↔ x ∈ acc ∨ x ∈ l.
Proof.
  revert acc. induction l as [|y l IH]; intros acc Hnd; simpl.
  - split; [done|]. intros x. rewrite elem_of_nil. tauto.
  - unfold Set_add at 2 4. destruct (decide (y ∈ acc)) as [Hy|Hy].
    + destruct (IH acc Hnd) as [H1 H2]. split; [done|].
      intros x. rewrite H2, elem_of_cons. split; [tauto|].
      intros [?|[->|?]]; tauto.
    + assert (NoDup (acc ++ [y])) as Hnd'.
      { apply NoDup_app. repeat split; [done | | apply NoDup_singleton].
        intros x Hx ->%list_elem_of_singleton. done. }
      destruct (IH _ Hnd') as [H1 H2]. split; [done|].
      intros x. rewrite H2, elem_of_app, list_elem_of_singleton, elem_of_cons.
      tauto.
Qed.

Lemma new_Set_NoDup l : NoDup (new_Set l).
Proof. apply (foldl_Set_add_spec [] l), NoDup_nil_2. Qed.

Lemma elem_of_new_Set l x : x ∈ new_Set l ↔ x ∈ l.
Proof.
  unfold new_Set. rewrite (proj2 (foldl_Set_add_spec [] l NoDup_nil_2) x).
  rewrite elem_of_nil. tauto.
Qed.

Lemma new_Set_id l : NoDup l → new_Set l = l.
Proof. intros. unfold new_Set. by rewrite foldl_Set_add. Qed.

Lemma new_Set_nil_inv l : new_Set l = [] → l = [].
Proof.
  intros E. destruct l as [|x l]; [done|].
  assert (x ∈ new_Set (x :: l)) as Hx by (apply elem_of_new_Set; left).
  rewrite E in Hx. by apply elem_of_nil in Hx.
Qed.

Lemma foldl_append_concat {X Y} (f : X → list Y) (acc : list Y) (l : list X) :
  foldl (λ acc x, acc ++ f x) acc l = acc ++ mjoin (f <$> l).
Proof.
  revert acc. induction l as [|x l IH]; intros acc; simpl.
  - by rewrite app_nil_r.
  - by rewrite IH, app_assoc.
Qed.

Lemma omap_Some_id {X} (l : list X) : omap Some l = l.
Proof. induction l as [|x l IH]; [done|]. simpl. by f_equal. Qed.

Lemma omap_concat {X Y} (f : X → option Y) (ls : list (list X)) :
  mjoin ((λ l : list X, omap f l) <$> ls) = omap f (mjoin ls).
Proof.
  induction ls as [|l ls IH]; [done|]. simpl. rewrite omap_app. by f_equal.
Qed.

Lemma filter_none {X} (P : X → Prop) `{∀ x, Decision (P x)} (l : list X) :
  Forall (λ x, ¬ P x) l → filter P l = [].
Proof.
  induction 1 as [|x l Hx Hl IH]; [done|]. by rewrite filter_cons_False.
Qed.

Lemma filter_ext_in {X} (P Q : X → Prop)
    `{∀ x, Decision (P x)} `{∀ x, Decision (Q x)} (l : list X) :
  (∀ x, x ∈ l → P x ↔ Q x) → filter P l = filter Q l.
Proof.
  induction l as [|x l IH]; intros HPQ; [done|].
  rewrite !filter_cons. rewrite IH by (intros y Hy; apply HPQ; by right).
  destruct (HPQ x) as [H1 H2]; [left|].
  destruct (decide (P x)), (decide (Q x)); tauto.
Qed.

Lemma omap_ext_in {X Y} (f g : X → option Y) (l : list X) :
  (∀ x, x ∈ l → f x = g x) → omap f l = omap g l.
Proof.
  induction l as [|x l IH]; intros Hfg; [done|]. csimpl.
  rewrite (Hfg x) by left. rewrite IH by (intros y Hy; apply Hfg; by right).
  done.
Qed.

(** The elements [f] keeps, followed by what [g] makes of the elements that
    satisfy [p], are what the two make of the list in one pass, when [f] keeps
    no element that satisfies [p]. *)
Lemma omap_split {X Y} (p : X → bool) (f g : X → option Y) (l : list X) :
  (∀ x, x ∈ l → p x = true → f x = None) →
  omap f l ++ omap g (filter (λ x, p x : Prop) l)
  ≡ₚ omap (λ x, if p x then g x else f x) l.
Proof.
  induction l as [|x l IH]; intros Hf; [done|]. csimpl.
  rewrite filter_cons.
  assert (∀ y, y ∈ l → p y = true → f y = None) as Hf'
    by (intros y Hy; apply Hf; by right).
  specialize (IH Hf'). destruct (p x) eqn:Hp; simpl.
  - rewrite (Hf x) by (done || left). csimpl.
    destruct (g x) as [y|]; csimpl; [|done].
    rewrite <- IH. by rewrite Permutation_middle.
  - destruct (f x) as [y|]; csimpl; [|done]. by rewrite IH.
Qed.

End Batches.

(** ** JS numbers *)

Module JSNumberFacts.
Import JSNumber.

Lemma nearest_small p : p < 2 ^ 53 → nearest p = p.
Proof.
  intros Hp. unfold nearest. rewrite bool_decide_eq_true_2; [done|].
  destruct (decide (0 < p)) as [H0|H0].
  - apply Z.log2_lt_pow2 in Hp; lia.
  - rewrite Z.log2_nonpos by lia. lia.
Qed.

(** A significand of 53 bits, or [2 ^ 53], scaled by a power of two is a
    double. *)
Lemma nearest_scaled m e :
  0 ≤ e → 2 ^ 52 ≤ m ≤ 2 ^ 53 → nearest (m * 2 ^ e) = m * 2 ^ e.
Proof.
  intros He [Hlo Hhi].
  assert (0 < 2 ^ e) as Hpow by (by apply Z.pow_pos_nonneg).
  destruct (decide (m = 2 ^ 53)) as [->|Hm].
  - assert (Z.log2 (2 ^ 53 * 2 ^ e) = 53 + e) as Hlog.
    { rewrite <- Z.pow_add_r by lia. apply Z.log2_pow2. lia. }
    unfold nearest. rewrite Hlog.
    rewrite bool_decide_eq_false_2 by lia.
    replace (53 + e - 52) with (e + 1) by lia.
    replace (e + 1 - 1) with e by lia.
    assert (2 ^ 53 * 2 ^ e = 2 ^ 52 * 2 ^ (e + 1)) as ->.
    { rewrite Z.pow_add_r by lia. lia. }
    assert (0 < 2 ^ (e + 1)) by (apply Z.pow_pos_nonneg; lia).
    rewrite Z.div_mul, Z.mod_mul by lia.
    rewrite bool_decide_eq_true_2 by (left; lia). done.
  - assert (Z.log2 (m * 2 ^ e) = 52 + e) as Hlog.
    { apply Z.log2_unique; [lia|].
      replace (Z.succ (52 + e)) with (53 + e) by lia.
      rewrite !Z.pow_add_r by lia. split.
      - apply Z.mul_le_mono_nonneg_r; lia.
      - apply Z.mul_lt_mono_pos_r; lia. }
    unfold nearest. rewrite Hlog. replace (52 + e - 52) with e by lia.
    case_bool_decide as He0.
    + done.
    + assert (0 < 2 ^ (e - 1)) by (apply Z.pow_pos_nonneg; lia).
      rewrite Z.div_mul, Z.mod_mul by lia.
      rewrite bool_decide_eq_true_2 by (left; lia). done.
Qed.

Lemma nearest_form p :
  0 < p →
  (p < 2 ^ 53 ∧ nearest p = p)
  ∨ ∃ m e, 0 ≤ e ∧ 2 ^ 52 ≤ m ≤ 2 ^ 53 ∧ nearest p = m * 2 ^ e.
Proof.
  intros Hp. destruct (decide (p < 2 ^ 53)) as [Hs|Hs].
  { left. split; [done|]. by apply nearest_small. }
  right. unfold nearest.
  pose proof (Z.log2_spec p Hp) as [Hlo Hhi].
  assert (53 ≤ Z.log2 p) as Hlog.
  { apply Z.log2_le_pow2; lia. }
  set (e := Z.log2 p - 52) in *.
  rewrite bool_decide_eq_false_2 by lia.
  assert (0 < 2 ^ e) as Hpow by (apply Z.pow_pos_nonneg; lia).
  assert (2 ^ 52 ≤ p / 2 ^ e < 2 ^ 53) as Hq.
  { replace (Z.log2 p) with (52 + e) in Hlo by lia.
    replace (Z.succ (Z.log2 p)) with (53 + e) in Hhi by lia.
    rewrite Z.pow_add_r in Hlo, Hhi by lia. split.
    - apply Z.div_le_lower_bound; lia.
    - apply Z.div_lt_upper_bound; lia. }
  eexists _, e. split; [lia|]. split; [|reflexivity].
  case_bool_decide; lia.
Qed.

Lemma nearest_pos p : 0 < p → 0 < nearest p.
Proof.
  intros Hp. destruct (nearest_form p Hp) as [[_ E]|(m & e & He & Hm & E)];
    rewrite E; [done|].
  assert (0 < 2 ^ e) by (by apply Z.pow_pos_nonneg).
  apply Z.mul_pos_pos; lia.
Qed.

Lemma nearest_idemp p : 0 < p → nearest (nearest p) = nearest p.
Proof.
  intros Hp. destruct (nearest_form p Hp) as [[_ E]|(m & e & He & Hm & E)];
    rewrite E; [done|].
  by apply nearest_scaled.
Qed.

(** Only zero reads as zero. *)
Lemma Number_eq_0 z : Number z = 0 ↔ z = 0.
Proof.
  split; [|by intros ->]. unfold Number. intros H.
  destruct (decide (z = 0)) as [|Hz]; [done|].
  pose proof (nearest_pos (Z.abs z)). lia.
Qed.

(** The integers up to [2 ^ 53] in magnitude are read as they are. *)
Lemma Number_safe z : Z.abs z ≤ 2 ^ 53 → Number z = z.
Proof.
  intros Hz. unfold Number.
  assert (nearest (Z.abs z) = Z.abs z) as ->; [|lia].
  destruct (decide (Z.abs z = 2 ^ 53)) as [->|].
  - apply (nearest_scaled (2 ^ 53) 0); lia.
  - apply nearest_small. lia.
Qed.

(** What [Number] gives is a double. *)
Lemma Number_idemp z : Number (Number z) = Number z.
Proof.
  unfold Number. destruct (decide (z = 0)) as [->|Hz]; [done|].
  pose proof (nearest_pos (Z.abs z) ltac:(lia)) as Hpos.
  assert (Z.sgn (Z.sgn z * nearest (Z.abs z)) = Z.sgn z) as -> by lia.
  assert (Z.abs (Z.sgn z * nearest (Z.abs z)) = nearest (Z.abs z)) as -> by lia.
  rewrite nearest_idemp by lia. done.
Qed.

(** Above [2 ^ 53] the odd integers are no doubles: they go to the neighbour
    with the even significand. *)
Example Number_rounds :
  Number 9007199254740992 = 9007199254740992
  ∧ Number 9007199254740993 = 9007199254740992
  ∧ Number 9007199254740994 = 9007199254740994
  ∧ Number 9007199254740995 = 9007199254740996
  ∧ Number (-9007199254740993) = -9007199254740992.
Proof. vm_compute. by repeat split. Qed.

End JSNumberFacts.

(** ** The counter cache *)

Module CounterSpec.
Import Redis RedisFacts JSNumber JSNumberFacts CachedCounter.

Section counter.
Variable CacheTTL_hour : Z.
Variable rootKey : string.
Variable fetchFn : option (id → Z).
Variable options : CachedCounterOptions.

Local Abbreviation get := (get CacheTTL_hour rootKey fetchFn options).
Local Abbreviation incrementBy := (incrementBy CacheTTL_hour rootKey fetchFn options).
Local Abbreviation ttl_ := (ttl_ CacheTTL_hour options).
Local Abbreviation key := (counter_key rootKey).

(** What a miss stores and returns, and the calls it makes. *)
Local Abbreviation fetched i :=
  (match fetchFn with Some f => Number (f i) | None => 0 end).
Local Abbreviation fetches :=
  (match fetchFn with Some _ => 1%nat | None => 0%nat end).

Implicit Types (st : Redis.store Z) (now : Z) (i : id).

(** A hit: the key holds a non-zero integer, which [get] returns as a JS
    number, leaving the store alone and the collaborator uncalled. *)
Lemma get_hit now st i n :
  Redis.get now st (key i) = Some n → n ≠ 0 →
  get now st i = (Number n, st, 0%nat).
Proof.
  intros E Hn. unfold CachedCounter.get. rewrite E. simpl.
  by rewrite bool_decide_eq_true_2 by (by rewrite Number_eq_0).
Qed.

(** A miss: the key is absent or holds zero; [get] stores and returns the
    fetched value, zero without a collaborator. *)
Lemma get_miss now st i :
  default 0 (Redis.get now st (key i)) = 0 →
  get now st i
  = (fetched i, Redis.set now (key i) (fetched i) (Some ttl_) st, fetches).
Proof.
  intros E. unfold CachedCounter.get. rewrite E.
  rewrite bool_decide_eq_false_2 by (intros H; by apply H).
  by destruct fetchFn.
Qed.

(** The count of a miss is a double. *)
Lemma Number_fetched i : Number (fetched i) = fetched i.
Proof. destruct fetchFn; [apply Number_idemp | done]. Qed.

(** Whatever the case, once [get] is done the key holds an integer that
    reads as the value [get] returned. *)
Lemma get_populates now st i :
  0 < ttl_ →
  ∃ stored, Redis.get now (get now st i).1.2 (key i) = Some stored
            ∧ Number stored = (get now st i).1.1.
Proof.
  intros Httl.
  destruct (decide (default 0 (Redis.get now st (key i)) = 0)) as [E|E].
  - rewrite (get_miss now st i E). cbn [fst snd]. exists (fetched i). split.
    + eapply get_Some; [by rewrite lookup_set, decide_True|].
      by apply live_fresh.
    + apply Number_fetched.
  - destruct (Redis.get now st (key i)) as [n|] eqn:G; [|done].
    rewrite (get_hit now st i n G E). by exists n.
Qed.

Lemma get_incrBy now st k n amount :
  Redis.get now st k = Some n →
  Redis.get now (incrBy now k amount st) k = Some (n + amount).
Proof.
  unfold Redis.get at 1, incrBy. intros G.
  destruct (peek now st k) as [[n' d]|] eqn:P; [|done].
  simpl in G. injection G as ->.
  apply peek_inv in P as [_ L].
  eapply get_Some; [by rewrite lookup_insert_eq | done].
Qed.

Lemma lookup_incrBy_ne now st k k' amount :
  k ≠ k' → incrBy now k amount st !! k' = st !! k'.
Proof.
  intros. unfold incrBy. destruct (peek now st k); by rewrite lookup_insert_ne.
Qed.

(** C9, amended.  [incrementBy(id, amount)] reads the current value through
    [get]: on a hit [previous] is the cached integer read as a JS number, on
    a miss the fetched count or zero, which [get] stores first.  Either way
    the key then holds an integer that reads as [previous].  The store adds
    [amount] (1 when omitted) to that integer, exactly, touching no other
    key.  The call returns [previous + amount] as JS adds numbers: the
    double nearest to the sum, which is the sum itself whenever that is at
    most [2 ^ 53] in magnitude. *)
Theorem incrementBy_returns_previous_plus_amount now st i amount :
  0 < ttl_ →
  let '(previous, st1, calls1) := get now st i in
  let '(value, st2, calls) := incrementBy now st i amount in
  let amount := default 1 amount in
  (∀ n, Redis.get now st (key i) = Some n → n ≠ 0 →
        previous = Number n ∧ st1 = st ∧ calls1 = 0%nat)
  ∧ (default 0 (Redis.get now st (key i)) = 0 →
       previous = fetched i
       ∧ st1 = Redis.set now (key i) (fetched i) (Some ttl_) st
       ∧ calls1 = fetches)
  ∧ (∃ stored, Redis.get now st1 (key i) = Some stored
               ∧ Number stored = previous
               ∧ Redis.get now st2 (key i) = Some (stored + amount))
  ∧ st2 = incrBy now (key i) amount st1
  ∧ (∀ k, k ≠ key i → st2 !! k = st1 !! k)
  ∧ value = add previous amount
  ∧ (Z.abs (previous + amount) ≤ 2 ^ 53 → value = previous + amount)
  ∧ calls = calls1.
Proof.
  intros Httl. pose proof (get_populates now st i Httl) as (stored & Hpop & Hread).
  pose proof (get_hit now st i) as Hhit. pose proof (get_miss now st i) as Hmiss.
  unfold CachedCounter.incrementBy.
  destruct (get now st i) as [[previous st1] calls1]. cbn [fst snd] in Hpop, Hread.
  split; [|split; [|split; [|split; [|split; [|split; [|split]]]]]]; try done.
  - intros n G Hn. specialize (Hhit n G Hn). by injection Hhit as -> -> ->.
  - intros E. specialize (Hmiss E). by injection Hmiss as -> -> ->.
  - exists stored. split; [done|]. split; [done|]. by apply get_incrBy.
  - intros k Hk. by apply lookup_incrBy_ne.
  - intros Hsafe. unfold add. by apply Number_safe.
Qed.

End counter.

(** C9 as stated fails where the sum is no double: with [2 ^ 53] cached and
    an amount of 1, [get] returns [2 ^ 53], the store goes to [2 ^ 53 + 1]
    and [incrementBy] returns [2 ^ 53]. *)
Lemma incrementBy_counterexample :
  let st : Redis.store Z := {[ "views:5" := (9007199254740992, None) ]} in
  let '(previous, _, _) :=
    CachedCounter.get 3600 "views" (Some (λ _, 7)) {| ttl := None |} 0 st (Num 5) in
  let '(value, st2, _) :=
    CachedCounter.incrementBy 3600 "views" (Some (λ _, 7)) {| ttl := None |} 0 st
      (Num 5) (Some 1) in
  previous = 9007199254740992
  ∧ Redis.get 0 st2 "views:5" = Some 9007199254740993
  ∧ value = 9007199254740992
  ∧ value ≠ previous + 1.
Proof. vm_compute. by repeat split. Qed.

(** C9, amended, at a counter that holds 4, with a collaborator that would
    answer 7 and an amount of 3. *)
Lemma incrementBy_returns_previous_plus_amount_witness :
  let st : Redis.store Z := {[ "views:5" := (4, Some 5000) ]} in
  0 < CachedCounter.ttl_ 3600 {| ttl := None |}
  ∧ let '(previous, st1, calls1) :=
      CachedCounter.get 3600 "views" (Some (λ _, 7)) {| ttl := None |} 0 st (Num 5) in
    let '(value, st2, calls) :=
      CachedCounter.incrementBy 3600 "views" (Some (λ _, 7)) {| ttl := None |} 0 st
        (Num 5) (Some 3) in
    (∀ n, Redis.get 0 st "views:5" = Some n → n ≠ 0 →
          previous = Number n ∧ st1 = st ∧ calls1 = 0%nat)
    ∧ (default 0 (Redis.get 0 st "views:5") = 0 →
         previous = Number 7
         ∧ st1 = Redis.set 0 "views:5" (Number 7)
                   (Some (CachedCounter.ttl_ 3600 {| ttl := None |})) st
         ∧ calls1 = 1%nat)
    ∧ (∃ stored, Redis.get 0 st1 "views:5" = Some stored
                 ∧ Number stored = previous
                 ∧ Redis.get 0 st2 "views:5" = Some (stored + 3))
    ∧ st2 = incrBy 0 "views:5" 3 st1
    ∧ (∀ k, k ≠ "views:5" → st2 !! k = st1 !! k)
    ∧ value = add previous 3
    ∧ (Z.abs (previous + 3) ≤ 2 ^ 53 → value = previous + 3)
    ∧ calls = calls1.
Proof.
  intros st. split; [reflexivity|].
  apply (incrementBy_returns_previous_plus_amount
           3600 "views" (Some (λ _, 7)) {| ttl := None |} 0 st (Num 5) (Some 3)).
  reflexivity.
Defined.

(** The same call returns 7 and leaves 7 in the store. *)
Example incrementBy_cached_4_by_3 :
  let st : Redis.store Z := {[ "views:5" := (4, Some 5000) ]} in
  CachedCounter.incrementBy 3600 "views" (Some (λ _, 7)) {| ttl := None |} 0 st
    (Num 5) (Some 3)
  = (7, {[ "views:5" := (7, Some 5000) ]}, 0%nat).
Proof. vm_compute. reflexivity. Qed.

End CounterSpec.

(** ** The query cache and its tag registry *)

Module QueryCacheSpec.
Import Redis RedisFacts QueryCache.

Section queryCache.
Context {Query Row : Type}.
Variable hash : Query → string.
Variable db : Query → list Row.

Local Abbreviation queryCache := (queryCache hash db).
Local Abbreviation cache_key := (cache_key hash).

Implicit Types (st : Redis.store (value Row)) (now : Z) (k : string).

Lemma foldl_del_lookup st (ks : list string) k :
  foldl (λ st key, del key st) st ks !! k =
  if decide (k ∈ ks) then None else st !! k.
Proof.
  revert st. induction ks as [|k' ks IH]; intros st; cbn [foldl].
  - by rewrite decide_False by apply not_elem_of_nil.
  - rewrite IH. destruct (decide (k ∈ ks)) as [Hin|Hin].
    + by rewrite decide_True by (by right).
    + destruct (decide (k = k')) as [->|Hne].
      * rewrite decide_True by left. apply lookup_del.
      * rewrite decide_False by (rewrite elem_of_cons; tauto).
        by apply lookup_del_ne.
Qed.

(** A store that holds nothing under [k] answers a read of [k] with "no
    entry", whenever it is asked. *)
Lemma packed_get_absent now st k : st !! k = None → packed_get now st k = Some None.
Proof. intros E. unfold packed_get. by rewrite (get_None now st k E). Qed.

(** Tagging adds to tag sets only: an entry that holds a packed value is
    left as it is. *)
Lemma sAdd_keeps_packed now st st' t k key rows d :
  sAdd now t k st = Some st' →
  peek now st key = Some (Packed rows, d) →
  st' !! key = st !! key.
Proof.
  unfold sAdd. intros E P.
  destruct (decide (t = key)) as [->|Hne].
  - rewrite P in E. done.
  - destruct (peek now st t) as [[[rows'|s] d']|]; simplify_eq;
      by rewrite lookup_insert_ne.
Qed.

Lemma tagCacheKey_loop_keeps_packed now tags st st' k key rows d :
  tagCacheKey_loop now k tags st = Some st' →
  peek now st key = Some (Packed rows, d) →
  st' !! key = st !! key.
Proof.
  revert st. induction tags as [|t tags IH]; intros st E P; simpl in E.
  - by simplify_eq.
  - destruct (sAdd now (tag_key t) k st) as [st1|] eqn:E1; [|done].
    simpl in E.
    pose proof (sAdd_keeps_packed _ _ _ _ _ _ _ _ E1 P) as H1.
    rewrite <- H1. apply (IH st1 E).
    apply peek_inv in P as [P L]. apply peek_Some; [by rewrite H1 | done].
Qed.

(** After [sAdd], the member is in the set. *)
Lemma sAdd_member now st st' t k :
  sAdd now t k st = Some st' →
  ∃ ks, sMembers now st' t = Some ks ∧ k ∈ ks.
Proof.
  unfold sAdd, sMembers. intros E.
  destruct (peek now st t) as [[[rows|s] d]|] eqn:P; simplify_eq.
  - apply peek_inv in P as [_ L]. simpl in L.
    erewrite get_Some; [| by rewrite lookup_insert_eq | done].
    eexists. split; [done|]. apply elem_of_elements. set_solver.
  - erewrite get_Some; [| by rewrite lookup_insert_eq | done].
    eexists. split; [done|]. apply elem_of_elements. set_solver.
Qed.

Lemma tagCacheKey_member now st st' k T :
  tagCacheKey now st k (One T) = Some st' →
  ∃ ks, sMembers now st' (tag_key T) = Some ks ∧ k ∈ ks.
Proof.
  unfold tagCacheKey. simpl. intros E.
  destruct (sAdd now (tag_key T) k st) as [st1|] eqn:E1; simplify_eq/=.
  by eapply sAdd_member.
Qed.

(** A key that is absent from the store is a miss for [queryCache], which
    then executes the query, once. *)
Lemma queryCache_miss key version now st query options rows st' n :
  st !! cache_key key version query = None →
  queryCache key version now st query options = Some (rows, st', n) →
  rows = db query ∧ n = 1%nat.
Proof.
  intros Habs. unfold QueryCache.queryCache.
  case_bool_decide; [by intros [= <- <- <-]|].
  rewrite (packed_get_absent now _ _ Habs). simpl.
  destruct (if tag_given options then _ else _); simpl; [|done].
  by intros [= <- <- <-].
Qed.

Lemma queryCache_miss_returns key version now st query options :
  st !! cache_key key version query = None →
  tag_given options = false →
  is_Some (queryCache key version now st query options).
Proof.
  intros Habs Htag. unfold QueryCache.queryCache.
  case_bool_decide; [done|].
  rewrite (packed_get_absent now _ _ Habs). simpl. by rewrite Htag.
Qed.

(** C7.  When the key of tag [T] holds the set [ks] (or nothing),
    [bustCacheTag(T)] asks the store to delete every member of [ks] and,
    after them, the tag set.  It leaves a store in which every member and the
    tag set are absent, so that a later read of a member finds no entry and a
    later [queryCache] call whose cache key is a member executes its
    query. *)
Theorem bustCacheTag_deletes_members_then_tag now st T ks :
  sMembers now st (tag_key T) = Some ks →
  ∃ st',
    bustCacheTag now st (One T) = Some (st', ks ++ [tag_key T])
    ∧ st' = del (tag_key T) (foldl (λ st key, del key st) st ks)
    ∧ (∀ K, K ∈ ks → st' !! K = None)
    ∧ st' !! tag_key T = None
    ∧ (∀ K now', K ∈ ks → packed_get now' st' K = Some None)
    ∧ (∀ key version query options now' rows st'' n,
         cache_key key version query ∈ ks →
         queryCache key version now' st' query options = Some (rows, st'', n) →
         rows = db query ∧ n = 1%nat)
    ∧ (∀ key version query options now',
         cache_key key version query ∈ ks →
         tag_given options = false →
         is_Some (queryCache key version now' st' query options)).
Proof.
  intros Hks. eexists. split; [|split; [reflexivity|]].
  { unfold bustCacheTag. simpl. by rewrite Hks. }
  assert (∀ K, K ∈ ks →
            del (tag_key T) (foldl (λ st key, del key st) st ks) !! K = None)
    as Hgone.
  { intros K HK. destruct (decide (tag_key T = K)) as [<-|Hne].
    - apply lookup_del.
    - rewrite lookup_del_ne by done. rewrite foldl_del_lookup.
      by rewrite decide_True. }
  repeat split.
  - done.
  - apply lookup_del.
  - intros K now' HK. by apply packed_get_absent, Hgone.
  - eapply queryCache_miss; [|done]. by apply Hgone.
  - eapply queryCache_miss; [|done]. by apply Hgone.
  - intros. apply queryCache_miss_returns; [by apply Hgone | done].
Qed.

(** C6.  Take a query whose result is the empty array, a call of
    [queryCache] for it that does not bypass the cache ([ttl] is not 0),
    finds no entry under the cache key and is not refused by the store.
    The call executes the query once and returns the empty array, and as
    long as the entry it has written has not expired, the cache key holds the
    empty array, which is not the absence of an entry, and every call with
    the same cache key that does not bypass the cache returns the empty array
    without executing the query and leaves the store as it is. *)
Theorem queryCache_serves_cached_empty_result
    key version now st query options rows st1 n :
  db query = [] →
  ttl <$> options ≠ Some 0 →
  packed_get now st (cache_key key version query) = Some None →
  queryCache key version now st query options = Some (rows, st1, n) →
  rows = [] ∧ n = 1%nat
  ∧ ∀ now' options',
      now ≤ now' →
      (∀ t, ttl <$> options = Some t → now' < now + 1000 * t) →
      ttl <$> options' ≠ Some 0 →
      packed_get now' st1 (cache_key key version query) = Some (Some [])
      ∧ packed_get now' st1 (cache_key key version query) ≠ Some None
      ∧ queryCache key version now' st1 query options' = Some ([], st1, 0%nat).
Proof.
  intros Hdb Httl Hmiss. unfold QueryCache.queryCache at 1.
  rewrite bool_decide_eq_false_2 by done. rewrite Hmiss. simpl.
  set (cacheKey := cache_key key version query).
  set (st0 := set now cacheKey (Packed (db query)) (ttl <$> options) st).
  intros Hrun.
  assert (∃ st', (if tag_given options
                  then tagCacheKey now st0 cacheKey
                         (default (One EmptyString) (tag <$> options))
                  else Some st0) = Some st' ∧ rows = db query ∧ st1 = st' ∧ n = 1%nat)
    as (st' & Htag & -> & -> & ->).
  { destruct (if tag_given options then _ else _) as [st'|]; [|done].
    simpl in Hrun. injection Hrun as <- <- <-. by exists st'. }
  split; [done|]. split; [done|].
  intros now' options' Hnow Hlive Httl'.
  set (d := (λ s, now + 1000 * s) <$> (ttl <$> options)).
  assert (st0 !! cacheKey = Some (Packed (db query), d)) as Hst0.
  { unfold st0. rewrite lookup_set. by rewrite decide_True. }
  assert (live now' d = true) as Hlive'.
  { unfold d. destruct (ttl <$> options) as [t|]; [|done]. simpl.
    apply bool_decide_eq_true. by apply Hlive. }
  assert (st' !! cacheKey = Some (Packed (db query), d)) as Hst'.
  { destruct (tag_given options); [|by simplify_eq].
    rewrite <- Hst0. unfold tagCacheKey in Htag.
    eapply tagCacheKey_loop_keeps_packed; [done|].
    apply peek_Some; [done|]. simpl. by apply (live_mono now' now). }
  assert (packed_get now' st' cacheKey = Some (Some [])) as Hget.
  { unfold packed_get. rewrite (get_Some now' _ _ _ _ Hst' Hlive').
    by rewrite Hdb. }
  split; [done|]. split; [by rewrite Hget|].
  unfold QueryCache.queryCache. rewrite bool_decide_eq_false_2 by done.
  fold cacheKey. rewrite Hget. simpl.
  by rewrite bool_decide_eq_true_2.
Qed.

(** The store does not refuse a call that misses when none of the tag keys
    holds a packed value. *)
Lemma tagCacheKey_loop_returns now tags st k :
  (∀ t rows d, t ∈ tags → peek now st (tag_key t) ≠ Some (Packed rows, d)) →
  is_Some (tagCacheKey_loop now k tags st).
Proof.
  revert st. induction tags as [|t tags IH]; intros st Hsets; simpl; [done|].
  assert (∃ st1 s d, sAdd now (tag_key t) k st = Some st1
                     ∧ st1 = <[tag_key t := (Members s, d)]> st
                     ∧ live now d = true) as (st1 & s & d & -> & -> & L).
  { unfold sAdd. destruct (peek now st (tag_key t)) as [[[rows|s] d]|] eqn:P.
    - exfalso. eapply Hsets; [left | done].
    - apply peek_inv in P as [_ L]. by eexists _, _, _.
    - by eexists _, _, _. }
  simpl. apply IH. intros t' rows d' Ht' P.
  destruct (decide (tag_key t = tag_key t')) as [E|E].
  - rewrite <- E in P. by erewrite peek_Some in P; [| by rewrite lookup_insert_eq |].
  - eapply (Hsets t' rows d'); [by right|].
    apply peek_inv in P as [P L']. rewrite lookup_insert_ne in P by done.
    by apply peek_Some.
Qed.

Lemma queryCache_returns key version now st query options :
  (∀ t rows d, t ∈ to_array (default (One EmptyString) (tag <$> options)) →
     tag_key t ≠ cache_key key version query
     ∧ peek now st (tag_key t) ≠ Some (Packed rows, d)) →
  is_Some (packed_get now st (cache_key key version query)) →
  is_Some (queryCache key version now st query options).
Proof.
  intros Htags [cachedData Hget]. unfold QueryCache.queryCache.
  case_bool_decide; [done|]. rewrite Hget. simpl.
  assert (is_Some (if tag_given options
                   then tagCacheKey now
                          (set now (cache_key key version query) (Packed (db query))
                             (ttl <$> options) st)
                          (cache_key key version query)
                          (default (One EmptyString) (tag <$> options))
                   else Some (set now (cache_key key version query)
                                (Packed (db query)) (ttl <$> options) st)))
    as [st' Hst'].
  { destruct (tag_given options); [|done].
    apply tagCacheKey_loop_returns. intros t rows d Ht P.
    destruct (Htags t rows d Ht) as [Hne Hset]. apply Hset.
    apply peek_inv in P as [P L]. rewrite lookup_set_ne in P by done.
    by apply peek_Some. }
  destruct cachedData as [rows|]; [case_bool_decide; [done|]|];
    by rewrite Hst'.
Qed.

End queryCache.

(** C7 on the store that holds two query results tagged ["T"]. *)
Lemma bustCacheTag_deletes_members_then_tag_witness :
  sMembers 5 Examples.two_tagged (tag_key "T") = Some ["q:active"; "q:banned"]
  ∧ ∃ st',
      bustCacheTag 5 Examples.two_tagged (One "T")
      = Some (st', ["q:active"; "q:banned"] ++ [tag_key "T"])
      ∧ st' = del (tag_key "T")
                (foldl (λ st key, del key st) Examples.two_tagged
                   ["q:active"; "q:banned"])
      ∧ (∀ K, K ∈ ["q:active"; "q:banned"] → st' !! K = None)
      ∧ st' !! tag_key "T" = None
      ∧ (∀ K now', K ∈ ["q:active"; "q:banned"] → packed_get now' st' K = Some None)
      ∧ (∀ key version query options now' rows st'' n,
           QueryCache.cache_key Examples.hash key version query
             ∈ ["q:active"; "q:banned"] →
           QueryCache.queryCache Examples.hash Examples.db key version now' st'
             query options = Some (rows, st'', n) →
           rows = Examples.db query ∧ n = 1%nat)
      ∧ (∀ key version query options now',
           QueryCache.cache_key Examples.hash key version query
             ∈ ["q:active"; "q:banned"] →
           tag_given options = false →
           is_Some (QueryCache.queryCache Examples.hash Examples.db key version
                      now' st' query options)).
Proof.
  split; [reflexivity|].
  apply (bustCacheTag_deletes_members_then_tag Examples.hash Examples.db
           5 Examples.two_tagged "T" ["q:active"; "q:banned"]).
  reflexivity.
Defined.

(** C6 on the empty store: the query ["banned"] has no rows. *)
Lemma queryCache_serves_cached_empty_result_witness :
  let st1 : Redis.store (value Z) :=
    <["tag:T" := (Members {["q:banned"]}, None)]>
      (<["q:banned" := (Packed [], Some 60000)]> ∅) in
  let cacheKey := QueryCache.cache_key Examples.hash "q" None "banned" in
  Examples.db "banned" = []
  ∧ ttl <$> Some Examples.tagged ≠ Some 0
  ∧ packed_get (Row:=Z) 0 ∅ cacheKey = Some None
  ∧ QueryCache.queryCache Examples.hash Examples.db "q" None 0 ∅ "banned"
      (Some Examples.tagged) = Some ([], st1, 1%nat)
  ∧ (@nil Z = [] ∧ 1%nat = 1%nat
     ∧ ∀ now' options',
         0 ≤ now' →
         (∀ t, ttl <$> Some Examples.tagged = Some t → now' < 0 + 1000 * t) →
         ttl <$> options' ≠ Some 0 →
         packed_get now' st1 cacheKey = Some (Some [])
         ∧ packed_get now' st1 cacheKey ≠ Some None
         ∧ QueryCache.queryCache Examples.hash Examples.db "q" None now' st1
             "banned" options' = Some ([], st1, 0%nat)).
Proof.
  intros st1 cacheKey.
  assert (ttl <$> Some Examples.tagged ≠ Some 0) as Httl by (by intros [=]).
  assert (QueryCache.queryCache Examples.hash Examples.db "q" None 0 ∅ "banned"
            (Some Examples.tagged) = Some ([], st1, 1%nat)) as Hrun
    by (vm_compute; reflexivity).
  split; [reflexivity|]. split; [exact Httl|]. split; [reflexivity|].
  split; [exact Hrun|].
  exact (queryCache_serves_cached_empty_result Examples.hash Examples.db
           "q" None 0 ∅ "banned" (Some Examples.tagged) [] st1 1%nat
           eq_refl Httl eq_refl Hrun).
Defined.

End QueryCacheSpec.

(** ** The batched entity cache *)

Module ArraySpec.
Import Redis RedisFacts Batches CachedArray Outcome.

Section array.
Context {A : Type}.
Variable CacheTTL_xs : Z.
Variable options : CachedLookupOptions A.

Local Abbreviation T := (MixedObject A).
Local Abbreviation entity_key := (entity_key options).
Local Abbreviation ttl_ := (ttl_ CacheTTL_xs options).
Local Abbreviation debounceTime_ := (debounceTime_ options).
Local Abbreviation cacheNotFound_ := (cacheNotFound_ options).
Local Abbreviation read_cache := (read_cache options).
Local Abbreviation read_batches := (read_batches options).
Local Abbreviation sort_ids := (sort_ids options).
Local Abbreviation lookup_misses := (lookup_misses options).
Local Abbreviation merge_id := (merge_id options).
Local Abbreviation write_back := (write_back CacheTTL_xs options).
Local Abbreviation fetch_plan := (fetch_plan CacheTTL_xs options).
Local Abbreviation array_fetch := (array_fetch CacheTTL_xs options).
Local Abbreviation array_bust := (array_bust options).
Local Abbreviation array_refresh := (array_refresh options).

Implicit Types (st : Redis.store T) (now : Z) (i j : Z) (x : T) (k : string).

(** *** Keys *)

Lemma entity_key_inj i j : entity_key i = entity_key j → i = j.
Proof.
  unfold CachedArray.entity_key. intros E.
  apply (inj (String.app (key options))) in E.
  apply (inj (String.app ":")) in E.
  by apply (inj pretty) in E.
Qed.

Lemma entity_key_ne i j : i ≠ j → entity_key i ≠ entity_key j.
Proof. intros Hne E. by apply Hne, entity_key_inj. Qed.

(** *** Writes to other keys *)

Lemma exec_other now st (c : command A) k :
  command_key c ≠ k → exec now st c !! k = st !! k.
Proof.
  destruct c; simpl; intros Hne.
  - by apply lookup_set_ne.
  - by apply lookup_setNX_ne.
  - by apply lookup_expire_ne.
Qed.

Lemma foldl_exec_other now st (cs : list (command A)) k :
  Forall (λ c, command_key c ≠ k) cs → foldl (exec now) st cs !! k = st !! k.
Proof.
  revert st. induction cs as [|c cs IH]; intros st Hcs; [done|].
  apply Forall_cons in Hcs as [Hc Hcs]. cbn [foldl].
  rewrite IH by done. by apply exec_other.
Qed.

Lemma foldl_set_other now st (l : list (Z * T)) (f : T → T) EX k :
  Forall (λ e, entity_key e.1 ≠ k) l →
  foldl (λ st (e : Z * T), Redis.set now (entity_key e.1) (f e.2) EX st) st l !! k
  = st !! k.
Proof.
  revert st. induction l as [|e l IH]; intros st Hl; [done|].
  apply Forall_cons in Hl as [He Hl]. cbn [foldl].
  rewrite IH by done. by apply lookup_set_ne.
Qed.

Lemma foldl_set_lookup now st (l : list (Z * T)) (f : T → T) EX i x :
  NoDup l.*1 → (i, x) ∈ l →
  foldl (λ st (e : Z * T), Redis.set now (entity_key e.1) (f e.2) EX st) st l
    !! entity_key i
  = Some (f x, (λ s, now + 1000 * s) <$> EX).
Proof.
  intros Hnd Hin. apply list_elem_of_split in Hin as (l1 & l2 & ->).
  rewrite foldl_app. cbn [foldl].
  rewrite fmap_app, fmap_cons in Hnd. apply NoDup_app in Hnd as (_ & _ & Hnd).
  apply NoDup_cons in Hnd as [Hi _].
  rewrite foldl_set_other.
  - simpl. rewrite lookup_set. by rewrite decide_True.
  - apply Forall_forall. intros [j y] Hj. simpl. apply entity_key_ne.
    intros ->. apply Hi. apply list_elem_of_fmap. by exists (i, y).
Qed.

Lemma foldl_del_other st (l : list Z) k :
  Forall (λ j, entity_key j ≠ k) l →
  foldl (λ st id, del (entity_key id) st) st l !! k = st !! k.
Proof.
  revert st. induction l as [|j l IH]; intros st Hl; [done|].
  apply Forall_cons in Hl as [Hj Hl]. cbn [foldl].
  rewrite IH by done. by apply lookup_del_ne.
Qed.

Lemma foldl_del_gone st (l : list Z) i :
  i ∈ l → foldl (λ st id, del (entity_key id) st) st l !! entity_key i = None.
Proof.
  revert st. induction l as [|j l IH]; intros st Hin; [by apply elem_of_nil in Hin|].
  cbn [foldl]. destruct (decide (i ∈ l)) as [Hl|Hl]; [by apply IH|].
  apply elem_of_cons in Hin as [->|]; [|done].
  rewrite foldl_del_other; [apply lookup_del|].
  apply Forall_forall. intros j' Hj'. apply entity_key_ne. by intros ->.
Qed.

(** *** [refresh] *)

Lemma refresh_lookup_written now st id i x :
  lookupFn options (to_array id) (Some true) !! i = Some x →
  (array_refresh now st id).1 !! entity_key i = Some (with_cachedAt x now, None).
Proof.
  intros Hx. unfold CachedArray.array_refresh. cbn [fst].
  rewrite foldl_del_other.
  - rewrite (foldl_set_lookup now st _ (λ y, with_cachedAt y now) None i x);
      [done | apply NoDup_fst_map_to_list | by apply elem_of_map_to_list].
  - apply Forall_forall. intros j [Hj _]%list_elem_of_filter.
    apply entity_key_ne. intros ->. by rewrite Hx in Hj.
Qed.

Lemma refresh_lookup_removed now st id i :
  i ∈ to_array id →
  lookupFn options (to_array id) (Some true) !! i = None →
  (array_refresh now st id).1 !! entity_key i = None.
Proof.
  intros Hi Hx. unfold CachedArray.array_refresh. cbn [fst].
  apply foldl_del_gone. by apply list_elem_of_filter.
Qed.

(** *** The reads of [fetch] *)

(** The batches of keys [fetch] reads are the keys of [ids], in order. *)
Lemma read_batches_concat (ids : list Z) :
  mjoin (read_batches ids) = entity_key <$> ids.
Proof.
  unfold CachedArray.read_batches.
  rewrite <- (chunk_concat ids 200) at 2 by lia.
  generalize (chunk ids 200). intros ls.
  induction ls as [|l ls IH]; [done|]. simpl. rewrite fmap_app. by f_equal.
Qed.

(** Reading in batches reads what a single multi-get of all the keys
    reads. *)
Lemma read_cache_unchunked now st (ids : list Z) :
  read_cache now st ids = omap (λ o : option T, o) (mGet now st (entity_key <$> ids)).
Proof.
  unfold CachedArray.read_cache. cbv zeta. rewrite omap_Some_id.
  rewrite (foldl_append_concat (λ batch, omap (λ o : option T, o) (mGet now st batch))).
  simpl. rewrite <- read_batches_concat.
  generalize (read_batches ids). intros ls.
  induction ls as [|l ls IH]; [done|]. simpl.
  unfold mGet in *. rewrite fmap_app, omap_app. by f_equal.
Qed.

Lemma read_cache_get now st (ids : list Z) :
  read_cache now st ids = omap (λ i, Redis.get now st (entity_key i)) ids.
Proof.
  rewrite read_cache_unchunked. unfold mGet.
  induction ids as [|i ids IH]; [done|]. csimpl.
  rewrite IH. by destruct (Redis.get now st (entity_key i)).
Qed.

(** The index of the objects read, when each of them carries the id it was
    read for. *)
Lemma index_by_ident_omap (f : Z → option T) (l : list Z) i :
  (∀ j x, j ∈ l → f j = Some x → ident x = j) →
  index_by_ident (omap f l) !! i = if decide (i ∈ l) then f i else None.
Proof.
  unfold index_by_ident. induction l as [|j l IH] using rev_ind; intros Hf.
  - rewrite decide_False by apply not_elem_of_nil. apply lookup_empty.
  - rewrite omap_app, foldl_app.
    assert (∀ j' x, j' ∈ l → f j' = Some x → ident x = j') as Hf'.
    { intros j' x Hj'. apply Hf. apply elem_of_app. by left. }
    specialize (IH Hf'). csimpl.
    destruct (f j) as [x|] eqn:Hj; cbn [foldl].
    + assert (ident x = j) as Hx.
      { apply Hf; [|done]. apply elem_of_app. right. left. }
      rewrite Hx. destruct (decide (i = j)) as [->|Hne].
      * rewrite lookup_insert_eq, decide_True; [done|].
        apply elem_of_app. right. left.
      * rewrite lookup_insert_ne by done. rewrite IH.
        destruct (decide (i ∈ l)) as [Hin|Hin].
        -- rewrite decide_True; [done|]. apply elem_of_app. by left.
        -- rewrite decide_False; [done|].
           rewrite elem_of_app, list_elem_of_singleton. tauto.
    + rewrite IH. destruct (decide (i ∈ l)) as [Hin|Hin].
      * rewrite decide_True; [done|]. apply elem_of_app. by left.
      * destruct (decide (i = j)) as [->|Hne].
        -- rewrite decide_True; [done|]. apply elem_of_app. right. left.
        -- rewrite decide_False; [done|].
           rewrite elem_of_app, list_elem_of_singleton. tauto.
Qed.

(** *** The loop over the distinct ids *)

Lemma Set_add_fresh i (l : list Z) : i ∉ l → Set_add i l = l ++ [i].
Proof. intros. unfold Set_add. by rewrite decide_False. Qed.

Lemma foldl_sort_id (cache : gmap Z T) (c : Z → option T) cutoff
    (s : sorted) (l : list Z) :
  NoDup l →
  (∀ i, i ∈ l → cache !! i = c i) →
  (∀ i, i ∈ l → (i ∉ cacheMisses s) ∧ (i ∉ dontCache s)) →
  foldl (sort_id cache cutoff) s l =
  {| results := results s ++ omap (λ i, hit (c i)) l;
     cacheMisses := cacheMisses s ++ filter (λ i, missed (c i) : Prop) l;
     dontCache := dontCache s ++ filter (λ i, held cutoff (c i) : Prop) l |}.
Proof.
  revert s. induction l as [|i l IH]; intros s Hnd Hc Hfresh.
  - simpl. rewrite !app_nil_r. by destruct s.
  - apply NoDup_cons in Hnd as [Hi Hnd]. cbn [foldl].
    destruct (Hfresh i) as [Hm Hd]; [left|].
    rewrite IH; [|done|..].
    + unfold sort_id. rewrite (Hc i) by left.
      rewrite !filter_cons. csimpl. unfold hit, missed, held.
      destruct (c i) as [x|]; simpl.
      * destruct (notFound x), (debounce x); simpl;
          [by idtac..| |by rewrite <- app_assoc].
        rewrite (Set_add_fresh _ _ Hm).
        destruct (later_than (cachedAt x) cutoff); simpl;
          [rewrite (Set_add_fresh _ _ Hd)|]; by rewrite <- ?app_assoc.
      * rewrite (Set_add_fresh _ _ Hm). by rewrite <- app_assoc.
    + intros j Hj. apply Hc. by right.
    + intros j Hj. assert (j ≠ i) as Hne by (by intros ->).
      destruct (Hfresh j) as [Hjm Hjd]; [by right|].
      unfold sort_id. destruct (cache !! i) as [x|]; simpl.
      * destruct (notFound x); [done|]. destruct (debounce x); [|done]. simpl.
        rewrite (Set_add_fresh _ _ Hm).
        destruct (later_than (cachedAt x) cutoff);
          [rewrite (Set_add_fresh _ _ Hd)|];
          rewrite ?elem_of_app, ?list_elem_of_singleton; tauto.
      * rewrite (Set_add_fresh _ _ Hm).
        rewrite ?elem_of_app, ?list_elem_of_singleton; tauto.
Qed.

(** *** The loop over the misses *)

Lemma foldl_merge_id (dbResults : gmap Z T) (dont : list Z) cachedAt
    (m : merged) (l : list Z) :
  foldl (merge_id dbResults dont cachedAt) m l =
  {| results' := results' m ++ omap (λ i, dbResults !! i) l;
     toCache :=
       toCache m
       ++ omap (to_cache dbResults dont cachedAt) l;
     toCacheNotFound :=
       toCacheNotFound m
       ++ (if cacheNotFound_
           then omap (to_cache_not_found dbResults cachedAt) l
           else []) |}.
Proof.
  unfold to_cache, to_cache_not_found.
  revert m. induction l as [|i l IH]; intros m.
  - simpl. destruct cacheNotFound_; rewrite !app_nil_r; by destruct m.
  - cbn [foldl]. rewrite IH. unfold CachedArray.merge_id. csimpl.
    destruct (dbResults !! i) as [r|]; simpl.
    + destruct (decide (i ∈ dont)) as [Hd|Hd].
      * rewrite bool_decide_eq_false_2 by (by intros ?). by rewrite <- app_assoc.
      * rewrite bool_decide_eq_true_2 by done. simpl. by rewrite <- !app_assoc.
    + destruct (decide (i ∈ dont)); destruct cacheNotFound_; simpl;
        by rewrite <- ?app_assoc.
Qed.

(** *** The writes *)

Lemma peek_ext now st st' k : st !! k = st' !! k → peek now st k = peek now st' k.
Proof. unfold peek. by intros ->. Qed.

Lemma foldl_exec_fmap {X} now st (f : X → command A) (l : list X) :
  foldl (exec now) st (f <$> l) = foldl (λ st e, exec now st (f e)) st l.
Proof.
  revert st. induction l as [|e l IH]; intros st; [done|]. csimpl. apply IH.
Qed.

Section write_back.
Variables (now : Z) (st : Redis.store T).
Variables (results0 : list T) (tc nf : list (Z * T)).
Hypothesis tc_NoDup : NoDup tc.*1.
Hypothesis nf_NoDup : NoDup nf.*1.
Hypothesis tc_nf : ∀ i, i ∈ tc.*1 → i ∉ nf.*1.

Local Abbreviation m :=
  {| results' := results0; toCache := tc; toCacheNotFound := nf |}.

Lemma write_back_keys (c : command A) :
  c ∈ write_back m → ∃ i, command_key c = entity_key i ∧ (i ∈ tc.*1 ∨ i ∈ nf.*1).
Proof.
  unfold CachedArray.write_back. simpl.
  intros [Hc|Hc]%elem_of_app.
  - apply list_elem_of_fmap in Hc as ([i v] & -> & Hin). exists i.
    split; [done|]. left. apply list_elem_of_fmap. by exists (i, v).
  - apply list_elem_of_join in Hc as (cs & Hc & Hcs).
    apply list_elem_of_fmap in Hcs as ([i v] & -> & Hin). exists i.
    split.
    + simpl in Hc. rewrite !elem_of_cons, elem_of_nil in Hc.
      by destruct Hc as [->|[->|[]]].
    + right. apply list_elem_of_fmap. by exists (i, v).
Qed.

(** A key that no miss has been planned for is left as it is. *)
Lemma write_back_other k :
  (∀ i, i ∈ tc.*1 ∨ i ∈ nf.*1 → entity_key i ≠ k) →
  foldl (exec now) st (write_back m) !! k = st !! k.
Proof.
  intros Hk. apply foldl_exec_other, Forall_forall. intros c Hc.
  apply write_back_keys in Hc as (i & -> & Hi). by apply Hk.
Qed.

(** A looked-up object is stored with the configured expiry. *)
Lemma write_back_cached i v :
  (i, v) ∈ tc →
  foldl (exec now) st (write_back m) !! entity_key i
  = Some (v, Some (now + 1000 * ttl_)).
Proof.
  intros Hin. unfold CachedArray.write_back. simpl. rewrite foldl_app.
  rewrite foldl_exec_other.
  - rewrite foldl_exec_fmap. simpl.
    by rewrite (foldl_set_lookup now st tc (λ y, y) (Some ttl_) i v).
  - apply Forall_forall. intros c Hc.
    apply list_elem_of_join in Hc as (cs & Hc & Hcs).
    apply list_elem_of_fmap in Hcs as ([j w] & -> & Hj).
    assert (j ≠ i) as Hne.
    { intros ->. apply (tc_nf i); apply list_elem_of_fmap.
      - by exists (i, v).
      - by exists (i, w). }
    simpl in Hc. rewrite !elem_of_cons, elem_of_nil in Hc.
    destruct Hc as [->|[->|[]]]; simpl; by apply entity_key_ne.
Qed.

(** A tombstone is stored unless the key holds something already; either way
    the key gets the configured expiry. *)
Lemma write_back_not_found i v :
  (i, v) ∈ nf →
  foldl (exec now) st (write_back m) !! entity_key i
  = Some (match peek now st (entity_key i) with Some e => e.1 | None => v end,
          Some (now + 1000 * ttl_)).
Proof.
  intros Hin. unfold CachedArray.write_back. simpl. rewrite foldl_app.
  set (st1 := foldl (exec now) st _).
  assert (st1 !! entity_key i = st !! entity_key i) as Hst1.
  { apply foldl_exec_other, Forall_forall. intros c Hc.
    apply list_elem_of_fmap in Hc as ([j w] & -> & Hj). simpl.
    apply entity_key_ne. intros ->.
    apply (tc_nf i); apply list_elem_of_fmap.
    - by exists (i, w).
    - by exists (i, v). }
  rewrite <- (peek_ext now st1 st _ Hst1). clearbody st1. clear Hst1.
  apply list_elem_of_split in Hin as (l1 & l2 & Hnf).
  pose proof nf_NoDup as Hnd. rewrite Hnf in Hnd |- *.
  rewrite fmap_app, fmap_cons in Hnd. apply NoDup_app in Hnd as (_ & H1 & Hnd).
  apply NoDup_cons in Hnd as [H2 _].
  rewrite fmap_app, fmap_cons, join_app. cbn [mjoin list_join].
  rewrite !foldl_app. cbn [foldl exec fst snd].
  set (st2 := foldl (exec now) st1 _).
  assert (st2 !! entity_key i = st1 !! entity_key i) as Hst2.
  { apply foldl_exec_other, Forall_forall. intros c Hc.
    apply list_elem_of_join in Hc as (cs & Hc & Hcs).
    apply list_elem_of_fmap in Hcs as ([j w] & -> & Hj).
    assert (j ≠ i) as Hne.
    { intros ->. apply (H1 i); [|left]. apply list_elem_of_fmap. by exists (i, w). }
    simpl in Hc. rewrite !elem_of_cons, elem_of_nil in Hc.
    destruct Hc as [->|[->|[]]]; simpl; by apply entity_key_ne. }
  rewrite <- (peek_ext now st2 st1 _ Hst2). clearbody st2. clear Hst2.
  rewrite foldl_exec_other.
  - apply lookup_setNX_expire.
  - apply Forall_forall. intros c Hc.
    apply list_elem_of_join in Hc as (cs & Hc & Hcs).
    apply list_elem_of_fmap in Hcs as ([j w] & -> & Hj).
    assert (j ≠ i) as Hne.
    { intros ->. apply H2. apply list_elem_of_fmap. by exists (i, w). }
    simpl in Hc. rewrite !elem_of_cons, elem_of_nil in Hc.
    destruct Hc as [->|[->|[]]]; simpl; by apply entity_key_ne.
Qed.

End write_back.

(** [Object.entries] lists the entries of [toCache] and [toCacheNotFound] by
    ascending id.  The order does not matter to the store: the writes of two
    listings of the same entries leave the same store. *)
Lemma write_back_order now st (rs rs' : list T) (tc tc' nf nf' : list (Z * T)) :
  NoDup tc.*1 → NoDup nf.*1 → (∀ i, i ∈ tc.*1 → i ∉ nf.*1) →
  tc ≡ₚ tc' → nf ≡ₚ nf' →
  foldl (exec now) st
    (write_back {| results' := rs; toCache := tc; toCacheNotFound := nf |})
  = foldl (exec now) st
      (write_back {| results' := rs'; toCache := tc'; toCacheNotFound := nf' |}).
Proof.
  intros Htc Hnf Hdis Ptc Pnf.
  assert (NoDup tc'.*1) as Htc' by (by rewrite <- Ptc).
  assert (NoDup nf'.*1) as Hnf' by (by rewrite <- Pnf).
  assert (∀ i, i ∈ tc'.*1 → i ∉ nf'.*1) as Hdis'.
  { intros i. rewrite <- Ptc, <- Pnf. apply Hdis. }
  apply map_eq. intros k.
  destruct (decide (k ∈ (λ e : Z * T, entity_key e.1) <$> tc)) as [Hk|Hk].
  { apply list_elem_of_fmap in Hk as ([i v] & -> & Hin). simpl.
    rewrite (write_back_cached now st rs tc nf Htc Hdis i v Hin).
    rewrite Ptc in Hin.
    by rewrite (write_back_cached now st rs' tc' nf' Htc' Hdis' i v Hin). }
  destruct (decide (k ∈ (λ e : Z * T, entity_key e.1) <$> nf)) as [Hk'|Hk'].
  { apply list_elem_of_fmap in Hk' as ([i v] & -> & Hin). simpl.
    rewrite (write_back_not_found now st rs tc nf Hnf Hdis i v Hin).
    rewrite Pnf in Hin.
    by rewrite (write_back_not_found now st rs' tc' nf' Hnf' Hdis' i v Hin). }
  assert (∀ i, i ∈ tc.*1 ∨ i ∈ nf.*1 → entity_key i ≠ k) as Hother.
  { intros i [([j v] & -> & Hin)%list_elem_of_fmap
             |([j v] & -> & Hin)%list_elem_of_fmap] <-; simpl in *.
    - apply Hk. apply list_elem_of_fmap. by exists (j, v).
    - apply Hk'. apply list_elem_of_fmap. by exists (j, v). }
  rewrite (write_back_other now st rs tc nf k Hother).
  rewrite (write_back_other now st rs' tc' nf' k); [done|].
  intros i. rewrite <- Ptc, <- Pnf. apply Hother.
Qed.

(** *** What [fetch] plans *)

Lemma fst_omap_keyed (f : Z → option (Z * T)) (l : list Z) :
  (∀ i e, f i = Some e → e.1 = i) →
  (omap f l).*1 = filter (λ i, is_Some (f i)) l.
Proof.
  intros Hf. induction l as [|i l IH]; [done|]. csimpl.
  rewrite filter_cons. destruct (f i) as [e|] eqn:E; csimpl.
  - rewrite IH. f_equal. by apply Hf.
  - done.
Qed.

Lemma to_cache_fst (dbResults : gmap Z T) dont cachedAt i e :
  to_cache dbResults dont cachedAt i = Some e → e.1 = i.
Proof.
  unfold to_cache. case_decide; [done|].
  destruct (dbResults !! i); simpl; by intros [= <-].
Qed.

Lemma to_cache_not_found_fst (dbResults : gmap Z T) cachedAt i e :
  to_cache_not_found dbResults cachedAt i = Some e → e.1 = i.
Proof.
  unfold to_cache_not_found. destruct (dbResults !! i); by intros [= <-].
Qed.

Section plan.
Variables (now : Z) (st : Redis.store T) (ids : list Z).
Hypothesis st_keyed : keyed options now st ids.

Local Abbreviation c := (λ i, Redis.get now st (entity_key i)).
Local Abbreviation misses := (misses_of options now st ids).
Local Abbreviation dont := (held_of options now st ids).
Local Abbreviation dbResults := (lookup_misses misses).
Local Abbreviation tc := (omap (to_cache dbResults dont now) misses).
Local Abbreviation nf :=
  (if cacheNotFound_ then omap (to_cache_not_found dbResults now) misses else []).

Lemma sort_ids_spec :
  sort_ids now (read_cache now st ids) ids =
  {| results := omap (λ i, hit (c i)) (new_Set ids);
     cacheMisses := misses;
     dontCache := dont |}.
Proof.
  unfold CachedArray.sort_ids. cbv zeta.
  rewrite (foldl_sort_id _ c).
  - done.
  - apply new_Set_NoDup.
  - intros i Hi. rewrite elem_of_new_Set in Hi. rewrite read_cache_get.
    rewrite index_by_ident_omap; [by rewrite decide_True|].
    intros j x Hj. by apply st_keyed.
  - intros i _. simpl. split; apply not_elem_of_nil.
Qed.

Lemma fetch_plan_spec :
  fetch_plan now (read_cache now st ids) ids =
  {| found := omap (λ i, hit (c i)) (new_Set ids) ++ omap (λ i, dbResults !! i) misses;
     asked := lookup_batches misses;
     writes := write_back
                 {| results' := omap (λ i, hit (c i)) (new_Set ids)
                                ++ omap (λ i, dbResults !! i) misses;
                    toCache := tc;
                    toCacheNotFound := nf |} |}.
Proof.
  unfold CachedArray.fetch_plan. cbv zeta. rewrite sort_ids_spec.
  cbn [cacheMisses results dontCache].
  destruct misses as [|i l] eqn:E.
  - unfold lookup_batches. rewrite chunk_nil. csimpl. rewrite app_nil_r.
    unfold CachedArray.write_back. by destruct cacheNotFound_.
  - by rewrite foldl_merge_id.
Qed.

Lemma misses_NoDup : NoDup misses.
Proof. apply NoDup_filter, new_Set_NoDup. Qed.

Lemma tc_NoDup : NoDup tc.*1.
Proof.
  rewrite fst_omap_keyed by apply to_cache_fst.
  apply NoDup_filter, misses_NoDup.
Qed.

Lemma nf_NoDup : NoDup nf.*1.
Proof.
  destruct cacheNotFound_; [|apply NoDup_nil_2].
  rewrite fst_omap_keyed by apply to_cache_not_found_fst.
  apply NoDup_filter, misses_NoDup.
Qed.

Lemma elem_of_tc i v :
  (i, v) ∈ tc ↔
  i ∈ misses ∧ (i ∉ dont) ∧ ∃ r, dbResults !! i = Some r ∧ v = with_cachedAt r now.
Proof.
  rewrite list_elem_of_omap. unfold to_cache. split.
  - intros (j & Hj & E). case_decide; [done|].
    destruct (dbResults !! j) as [r|] eqn:Hr; simplify_eq/=. eauto.
  - intros (Hi & Hd & r & Hr & ->). exists i. split; [done|].
    rewrite decide_False by done. by rewrite Hr.
Qed.

Lemma elem_of_nf i v :
  (i, v) ∈ nf ↔
  cacheNotFound_ = true ∧ i ∈ misses ∧ dbResults !! i = None ∧ v = tombstone i now.
Proof.
  destruct cacheNotFound_.
  - rewrite list_elem_of_omap. unfold to_cache_not_found. split.
    + intros (j & Hj & E). destruct (dbResults !! j) eqn:Hr; simplify_eq/=. eauto.
    + intros (_ & Hi & Hr & ->). exists i. split; [done|]. by rewrite Hr.
  - rewrite elem_of_nil. split; [done | by intros [[=] _]].
Qed.

Lemma tc_nf_disjoint i : i ∈ tc.*1 → i ∉ nf.*1.
Proof.
  intros ([j v] & -> & Hv)%list_elem_of_fmap ([j' w] & E & Hw)%list_elem_of_fmap.
  simpl in E. subst j'.
  apply elem_of_tc in Hv as (_ & _ & r & Hr & _).
  apply elem_of_nf in Hw as (_ & _ & Hn & _). congruence.
Qed.

End plan.

(** *** What [fetch] does, on a store whose objects carry their ids *)

Lemma array_fetch_spec now st (ids : list Z) :
  ids ≠ [] → keyed options now st ids →
  array_fetch now st ids =
  {| returned :=
       append_results options
         (omap (λ i, hit (Redis.get now st (entity_key i))) (new_Set ids)
          ++ omap (λ i, lookup_misses (misses_of options now st ids) !! i)
               (misses_of options now st ids));
     store_after := foldl (exec now) st
                      (writes (fetch_plan now (read_cache now st ids) ids));
     lookups := lookup_batches (misses_of options now st ids);
     mGets := read_batches ids |}.
Proof.
  intros Hids Hkeyed. unfold CachedArray.array_fetch.
  destruct ids as [|i ids]; [done|]. cbv zeta.
  by rewrite (fetch_plan_spec now st (i :: ids) Hkeyed).
Qed.

Section store_after.
Variables (now : Z) (st : Redis.store T) (ids : list Z).
Hypothesis st_keyed : keyed options now st ids.

Local Abbreviation misses := (misses_of options now st ids).
Local Abbreviation dont := (held_of options now st ids).
Local Abbreviation dbResults := (lookup_misses misses).

(** The writes of the plan, run on a store [st'] that need not be the store
    [st] the plan was made from. *)
Local Abbreviation run st' :=
  (foldl (exec now) st' (writes (fetch_plan now (read_cache now st ids) ids))).

Lemma run_cached st' i r :
  i ∈ misses → i ∉ dont → dbResults !! i = Some r →
  run st' !! entity_key i = Some (with_cachedAt r now, Some (now + 1000 * ttl_)).
Proof.
  intros Hi Hd Hr. rewrite (fetch_plan_spec now st ids st_keyed). cbn [writes].
  apply write_back_cached.
  - apply tc_NoDup.
  - apply tc_nf_disjoint.
  - apply elem_of_tc. eauto.
Qed.

Lemma run_not_found st' i :
  cacheNotFound_ = true → i ∈ misses → dbResults !! i = None →
  run st' !! entity_key i
  = Some (match peek now st' (entity_key i) with
          | Some e => e.1
          | None => tombstone i now
          end, Some (now + 1000 * ttl_)).
Proof.
  intros Hnf Hi Hr. rewrite (fetch_plan_spec now st ids st_keyed). cbn [writes].
  apply write_back_not_found.
  - apply nf_NoDup.
  - apply tc_nf_disjoint.
  - by apply elem_of_nf.
Qed.

Lemma run_other st' k :
  (∀ i, i ∈ misses → entity_key i = k →
     (i ∈ dont ∧ is_Some (dbResults !! i))
     ∨ (cacheNotFound_ = false ∧ dbResults !! i = None)) →
  run st' !! k = st' !! k.
Proof.
  intros Hk. rewrite (fetch_plan_spec now st ids st_keyed). cbn [writes].
  apply write_back_other. intros i Hi Ei.
  destruct Hi as [([j v] & -> & Hv)%list_elem_of_fmap
                 |([j v] & -> & Hv)%list_elem_of_fmap]; simpl in *.
  - apply elem_of_tc in Hv as (Hm & Hd & r & Hr & _).
    destruct (Hk j Hm Ei) as [[? _]|[_ ?]]; [done | congruence].
  - apply elem_of_nf in Hv as (Hnf & Hm & Hr & _).
    destruct (Hk j Hm Ei) as [[_ [? ?]]|[? _]]; congruence.
Qed.

End store_after.

(** *** A single id *)

Lemma new_Set_singleton i : new_Set [i] = [i].
Proof. apply new_Set_id, NoDup_singleton. Qed.

Lemma misses_of_singleton now st i :
  misses_of options now st [i] =
  if missed (Redis.get now st (entity_key i)) then [i] else [].
Proof.
  unfold misses_of. rewrite new_Set_singleton, filter_cons, filter_nil.
  by destruct (missed _).
Qed.

Lemma held_of_singleton now st i :
  held_of options now st [i] =
  if held (now - debounceTime_ * 1000) (Redis.get now st (entity_key i))
  then [i] else [].
Proof.
  unfold held_of. rewrite new_Set_singleton, filter_cons, filter_nil.
  by destruct (held _ _).
Qed.

Lemma lookup_misses_singleton i :
  lookup_misses [i] = lookupFn options [i] None.
Proof.
  unfold CachedArray.lookup_misses, lookup_batches.
  rewrite chunk_singleton by lia. simpl. apply (right_id _ _).
Qed.

Lemma lookup_batches_singleton i : lookup_batches [i] = [[i]].
Proof. unfold lookup_batches. apply chunk_singleton. lia. Qed.

Lemma keyed_singleton now st i :
  (∀ x, Redis.get now st (entity_key i) = Some x → ident x = i) →
  keyed options now st [i].
Proof. intros H j x ->%list_elem_of_singleton. apply H. Qed.

(** [fetch([i])] when [i] is a miss that nothing holds back and the lookup
    returns an object for it. *)
Lemma fetch_one_looked_up now st i r :
  (∀ x, Redis.get now st (entity_key i) = Some x → ident x = i) →
  missed (Redis.get now st (entity_key i)) = true →
  held (now - debounceTime_ * 1000) (Redis.get now st (entity_key i)) = false →
  lookupFn options [i] None !! i = Some r →
  returned (array_fetch now st [i]) = append_results options [r]
  ∧ lookups (array_fetch now st [i]) = [[i]]
  ∧ store_after (array_fetch now st [i]) !! entity_key i
    = Some (with_cachedAt r now, Some (now + 1000 * ttl_)).
Proof.
  intros Hk%keyed_singleton Hm Hh Hr.
  assert (misses_of options now st [i] = [i]) as Hmisses
    by (by rewrite misses_of_singleton, Hm).
  assert (held_of options now st [i] = []) as Hheld
    by (by rewrite held_of_singleton, Hh).
  split; [|split].
  - rewrite array_fetch_spec by done. cbn [returned].
    rewrite Hmisses, new_Set_singleton, lookup_misses_singleton. csimpl.
    rewrite Hr. unfold hit, missed in *.
    destruct (Redis.get now st (entity_key i)) as [x|]; [|done].
    destruct (notFound x), (debounce x); done.
  - rewrite array_fetch_spec by done. cbn [lookups].
    by rewrite Hmisses, lookup_batches_singleton.
  - apply (run_cached now st [i] Hk st i r).
    + rewrite Hmisses. left.
    + rewrite Hheld. apply not_elem_of_nil.
    + by rewrite Hmisses, lookup_misses_singleton.
Qed.

(** [fetch([i])] when the key of [i] holds a debounce marker whose
    [cachedAt] is within the debounce window: the looked-up object is
    returned and the store is left as it is.  This is the suppression the
    loop of lines 79-90 provides for, and it needs a marker that carries a
    [cachedAt]. *)
Lemma fetch_one_held now st i r :
  (∀ x, Redis.get now st (entity_key i) = Some x → ident x = i) →
  held (now - debounceTime_ * 1000) (Redis.get now st (entity_key i)) = true →
  lookupFn options [i] None !! i = Some r →
  returned (array_fetch now st [i]) = append_results options [r]
  ∧ lookups (array_fetch now st [i]) = [[i]]
  ∧ store_after (array_fetch now st [i]) = st.
Proof.
  intros Hk%keyed_singleton Hh Hr.
  assert (missed (Redis.get now st (entity_key i)) = true) as Hm.
  { unfold held, missed in *. destruct (Redis.get now st (entity_key i)); [|done].
    by apply andb_true_iff in Hh as [? _]. }
  assert (misses_of options now st [i] = [i]) as Hmisses
    by (by rewrite misses_of_singleton, Hm).
  assert (held_of options now st [i] = [i]) as Hheld
    by (by rewrite held_of_singleton, Hh).
  split; [|split].
  - rewrite array_fetch_spec by done. cbn [returned].
    rewrite Hmisses, new_Set_singleton, lookup_misses_singleton. csimpl.
    rewrite Hr. unfold hit, missed in *.
    destruct (Redis.get now st (entity_key i)) as [x|]; [|done].
    destruct (notFound x), (debounce x); done.
  - rewrite array_fetch_spec by done. cbn [lookups].
    by rewrite Hmisses, lookup_batches_singleton.
  - apply map_eq. intros k. apply (run_other now st [i] Hk st k).
    intros j Hj _. rewrite Hmisses in Hj. apply list_elem_of_singleton in Hj as ->.
    left. rewrite Hheld, Hmisses, lookup_misses_singleton, Hr.
    split; [left | done].
Qed.

(** [fetch([i])] when [i] is a miss and the lookup returns nothing for it. *)
Lemma fetch_one_not_found now st i :
  (∀ x, Redis.get now st (entity_key i) = Some x → ident x = i) →
  missed (Redis.get now st (entity_key i)) = true →
  lookupFn options [i] None !! i = None →
  returned (array_fetch now st [i]) = append_results options []
  ∧ lookups (array_fetch now st [i]) = [[i]]
  ∧ (cacheNotFound_ = true →
     store_after (array_fetch now st [i]) !! entity_key i
     = Some (match peek now st (entity_key i) with
             | Some e => e.1
             | None => tombstone i now
             end, Some (now + 1000 * ttl_)))
  ∧ (cacheNotFound_ = false → store_after (array_fetch now st [i]) = st).
Proof.
  intros Hk%keyed_singleton Hm Hr.
  assert (misses_of options now st [i] = [i]) as Hmisses
    by (by rewrite misses_of_singleton, Hm).
  split; [|split; [|split]].
  - rewrite array_fetch_spec by done. cbn [returned].
    rewrite Hmisses, new_Set_singleton, lookup_misses_singleton. csimpl.
    rewrite Hr. unfold hit, missed in *.
    destruct (Redis.get now st (entity_key i)) as [x|]; [|done].
    destruct (notFound x), (debounce x); done.
  - rewrite array_fetch_spec by done. cbn [lookups].
    by rewrite Hmisses, lookup_batches_singleton.
  - intros Hnf. apply (run_not_found now st [i] Hk st i Hnf).
    + rewrite Hmisses. left.
    + by rewrite Hmisses, lookup_misses_singleton.
  - intros Hnf. apply map_eq. intros k.
    apply (run_other now st [i] Hk st k).
    intros j Hj _. rewrite Hmisses in Hj |- *.
    apply list_elem_of_singleton in Hj as ->. right.
    by rewrite lookup_misses_singleton.
Qed.



(** *** [fetch] after [bust], negative caching, [refresh] and the expiry of tombstones *)

(** C1.  What the code does after [bust([X])]: the marker [bust] writes has
    no [cachedAt], so it never counts as being within the debounce window.
    The marker is what the key of [X] holds for the whole window; a
    [fetch([X])] at any instant [now'], within the window or after it, asks
    the lookup collaborator for [X] and, when the collaborator returns an
    object, returns it and replaces whatever the key holds, the marker
    included, by that object, stamped and with the configured expiry. *)
Theorem fetch_after_bust_writes_the_looked_up_object now now' st X r :
  lookupFn options [X] None !! X = Some r →
  let st1 := array_bust now st (One X) in
  let f := array_fetch now' st1 [X] in
  (now' < now + 1000 * debounceTime_ →
   Redis.get now' st1 (entity_key X) = Some (debounce_marker X))
  ∧ lookups f = [[X]]
  ∧ returned f = append_results options [r]
  ∧ store_after f !! entity_key X
    = Some (with_cachedAt r now', Some (now' + 1000 * ttl_)).
Proof.
  intros Hr st1 f.
  assert (st1 !! entity_key X
          = Some (debounce_marker X, Some (now + 1000 * debounceTime_))) as Hst1.
  { unfold st1, CachedArray.array_bust. simpl. rewrite lookup_set.
    by rewrite decide_True. }
  assert (Redis.get now' st1 (entity_key X) = Some (debounce_marker X)
          ∨ Redis.get now' st1 (entity_key X) = None) as Hget.
  { unfold Redis.get, peek. rewrite Hst1. simpl.
    destruct (bool_decide _); auto. }
  split.
  { intros Hlt. eapply get_Some; [done|]. simpl. by apply bool_decide_eq_true. }
  assert (returned f = append_results options [r] ∧ lookups f = [[X]]
          ∧ store_after f !! entity_key X
            = Some (with_cachedAt r now', Some (now' + 1000 * ttl_)))
    as (? & ? & ?); [|done].
  apply fetch_one_looked_up; [| | |done]; destruct Hget as [-> | ->]; try done.
  by intros x [= <-].
Qed.

(** C4.  [refresh] stores every object the lookup collaborator returns
    without a deadline, so that it is read back at any later instant; the
    same object stored by a [fetch] that missed carries the configured
    expiry. *)
Theorem refresh_stores_without_expiry now st id i r :
  lookupFn options (to_array id) (Some true) !! i = Some r →
  let st' := (array_refresh now st id).1 in
  st' !! entity_key i = Some (with_cachedAt r now, None)
  ∧ (∀ now', Redis.get now' st' (entity_key i) = Some (with_cachedAt r now))
  ∧ (∀ r', Redis.get now st (entity_key i) = None →
           lookupFn options [i] None !! i = Some r' →
           store_after (array_fetch now st [i]) !! entity_key i
           = Some (with_cachedAt r' now, Some (now + 1000 * ttl_))).
Proof.
  intros Hr st'. pose proof (refresh_lookup_written now st id i r Hr) as Hst'.
  split; [done|]. split.
  - intros now'. by eapply get_Some.
  - intros r' Hget Hr'.
    by apply fetch_one_looked_up; rewrite ?Hget.
Qed.

(** C5.  For every id that [fetch] took for a miss and for which the lookups
    returned nothing, with [cacheNotFound] enabled, the writes of [fetch]
    hold a set-if-not-exists of the tombstone followed by an [expire] with
    the configured ttl.  When the key holds an object by the time they reach
    the store, written by another caller since [fetch] read the key, the
    set-if-not-exists changes nothing and the writes leave the key with that
    object and a deadline of [ttl] seconds from now. *)
Theorem fetch_expires_key_when_setNX_fails now st (ids : list Z) i :
  keyed options now st ids →
  cacheNotFound_ = true →
  i ∈ misses_of options now st ids →
  lookup_misses (misses_of options now st ids) !! i = None →
  let ws := writes (fetch_plan now (read_cache now st ids) ids) in
  (∃ before after,
     ws = before
          ++ [CSetNX (entity_key i) (tombstone i now); CExpire (entity_key i) ttl_]
          ++ after)
  ∧ ∀ st' x d,
      peek now st' (entity_key i) = Some (x, d) →
      setNX now (entity_key i) (tombstone i now) st' = st'
      ∧ foldl (exec now) st' ws !! entity_key i = Some (x, Some (now + 1000 * ttl_)).
Proof.
  intros Hk Hnf Hi Hr ws. split.
  - unfold ws. rewrite (fetch_plan_spec now st ids Hk). cbn [writes].
    unfold CachedArray.write_back. cbn [toCache toCacheNotFound].
    assert ((i, tombstone i now)
            ∈ (if cacheNotFound_
               then omap (to_cache_not_found
                            (lookup_misses (misses_of options now st ids)) now)
                         (misses_of options now st ids)
               else [])) as Hin by (by apply elem_of_nf).
    apply list_elem_of_split in Hin as (l1 & l2 & ->).
    rewrite fmap_app, fmap_cons, join_app. cbn [mjoin list_join fst snd].
    rewrite app_assoc. eexists _, _. reflexivity.
  - intros st' x d Hpeek. split.
    + unfold setNX. by rewrite Hpeek.
    + unfold ws. rewrite (run_not_found now st ids Hk st' i Hnf Hi Hr).
      by rewrite Hpeek.
Qed.

(** *** Two calls in a row *)

Lemma fetch_no_misses now st (ids : list Z) :
  ids ≠ [] → keyed options now st ids → misses_of options now st ids = [] →
  array_fetch now st ids =
  {| returned := append_results options
                   (omap (λ i, hit (Redis.get now st (entity_key i))) (new_Set ids));
     store_after := st; lookups := []; mGets := read_batches ids |}.
Proof.
  intros Hids Hk Hmisses. rewrite array_fetch_spec by done.
  rewrite (fetch_plan_spec now st ids Hk). cbn [writes]. rewrite Hmisses.
  csimpl. rewrite app_nil_r. unfold lookup_batches. rewrite chunk_nil.
  unfold CachedArray.write_back. by destruct cacheNotFound_.
Qed.

Lemma lookup_misses_plain (misses : list Z) i x :
  (∀ batch j y, lookupFn options batch None !! j = Some y → plain j y) →
  lookup_misses misses !! i = Some x → plain i x.
Proof.
  intros Hplain. unfold CachedArray.lookup_misses.
  generalize (lookup_batches misses). intros batches. revert x.
  induction batches as [|batch batches IH] using rev_ind; intros x.
  - simpl. by rewrite lookup_empty.
  - rewrite foldl_app. cbn [foldl].
    intros [Hx|[_ Hx]]%lookup_union_Some_raw; [by eapply Hplain | by apply IH].
Qed.

Lemma unstamped_with_cachedAt x t : unstamped (with_cachedAt x t) = unstamped x.
Proof. done. Qed.

Section twice.
Variables (now1 now2 : Z) (st : Redis.store T) (ids : list Z).
Hypothesis tombstones_on : cacheNotFound_ = true.
Hypothesis lookups_plain :
  ∀ batch i x, lookupFn options batch None !! i = Some x → plain i x.
Hypothesis st_settled :
  ∀ i x, i ∈ ids → Redis.get now1 st (entity_key i) = Some x →
         ident x = i ∧ debounce x = false.
Hypothesis st_lasts :
  ∀ i e, i ∈ ids → peek now1 st (entity_key i) = Some e → live now2 e.2 = true.
Hypothesis written_lasts : now2 < now1 + 1000 * ttl_.

Local Abbreviation c1 := (λ i, Redis.get now1 st (entity_key i)).
Local Abbreviation misses1 := (misses_of options now1 st ids).
Local Abbreviation db := (lookup_misses misses1).
Local Abbreviation st1 := (store_after (array_fetch now1 st ids)).

Lemma twice_keyed : keyed options now1 st ids.
Proof. intros i x Hi Hx. by destruct (st_settled i x Hi Hx). Qed.

Lemma twice_missed i : i ∈ ids → missed (c1 i) = true ↔ c1 i = None.
Proof.
  intros Hi. destruct (c1 i) as [x|] eqn:Hx; simpl; [|done].
  destruct (st_settled i x Hi Hx) as [_ ->]. rewrite andb_false_r. done.
Qed.

Lemma twice_misses i : i ∈ misses1 ↔ i ∈ ids ∧ c1 i = None.
Proof.
  unfold misses_of. rewrite list_elem_of_filter, elem_of_new_Set. split.
  - intros [Hm Hi]. split; [done|]. apply twice_missed; [done|].
    by apply Is_true_true.
  - intros [Hi Hc]. split; [|done]. apply Is_true_true. by apply twice_missed.
Qed.

Lemma twice_held : held_of options now1 st ids = [].
Proof.
  unfold held_of. apply filter_none, Forall_forall. intros i Hi.
  rewrite elem_of_new_Set in Hi. unfold held.
  destruct (Redis.get now1 st (entity_key i)) as [x|] eqn:Hx; [|by intros []].
  destruct (st_settled i x Hi Hx) as [_ ->]. rewrite andb_false_r. by intros [].
Qed.

(** What the second call reads for an id: what the first call read when it
    read something, and else what the first call wrote. *)
Local Abbreviation second_read :=
  (λ i, match c1 i with
        | Some x => Some x
        | None =>
            match db !! i with
            | Some r => Some (with_cachedAt r now1)
            | None => Some (tombstone i now1)
            end
        end).

Lemma twice_second_read i :
  i ∈ ids → Redis.get now2 st1 (entity_key i) = second_read i.
Proof.
  intros Hi. assert (ids ≠ []) as Hids by (by intros ->; apply elem_of_nil in Hi).
  assert (st1 = foldl (exec now1) st
                  (writes (fetch_plan now1 (read_cache now1 st ids) ids))) as ->.
  { unfold CachedArray.array_fetch. by destruct ids. }
  destruct (c1 i) as [x|] eqn:Hx.
  - pose proof Hx as Hx'. unfold Redis.get in Hx'.
    destruct (peek now1 st (entity_key i)) as [[x' d]|] eqn:Hp; [|done].
    simpl in Hx'. injection Hx' as ->.
    pose proof (st_lasts i _ Hi Hp) as Hl. apply peek_inv in Hp as [Hp _].
    eapply get_Some; [|exact Hl].
    rewrite (run_other now1 st ids twice_keyed); [done|].
    intros j Hj ->%entity_key_inj. apply twice_misses in Hj as [_ Hj].
    congruence.
  - assert (i ∈ misses1) as Hm by (by apply twice_misses).
    destruct (db !! i) as [r|] eqn:Hr.
    + eapply get_Some.
      * apply (run_cached now1 st ids twice_keyed); [done| |done].
        rewrite twice_held. apply not_elem_of_nil.
      * simpl. by apply bool_decide_eq_true.
    + assert (peek now1 st (entity_key i) = None) as Hp.
      { unfold Redis.get in Hx. by destruct (peek now1 st (entity_key i)). }
      eapply get_Some.
      * rewrite (run_not_found now1 st ids twice_keyed st i); [|done..].
        by rewrite Hp.
      * simpl. by apply bool_decide_eq_true.
Qed.

Lemma twice_keyed_again : keyed options now2 st1 ids.
Proof.
  intros i x Hi. rewrite twice_second_read by done.
  destruct (c1 i) as [y|] eqn:Hy.
  - intros [= <-]. by destruct (st_settled i y Hi Hy).
  - destruct (db !! i) as [r|] eqn:Hr; intros [= <-]; [|done].
    by destruct (lookup_misses_plain _ _ _ lookups_plain Hr).
Qed.

Lemma twice_no_misses_again : misses_of options now2 st1 ids = [].
Proof.
  unfold misses_of. apply filter_none, Forall_forall. intros i Hi.
  rewrite elem_of_new_Set in Hi. rewrite twice_second_read by done.
  destruct (c1 i) as [y|] eqn:Hy.
  - destruct (st_settled i y Hi Hy) as [_ Hd]. simpl. rewrite Hd, andb_false_r.
    by intros [].
  - destruct (db !! i) as [r|] eqn:Hr; simpl; [|by intros []].
    destruct (lookup_misses_plain _ _ _ lookups_plain Hr) as (_ & _ & ->).
    rewrite andb_false_r. by intros [].
Qed.

Lemma twice_same_entities :
  same_entities
    (omap (λ i, hit (c1 i)) (new_Set ids) ++ omap (λ i, db !! i) misses1)
    (omap (λ i, hit (Redis.get now2 st1 (entity_key i))) (new_Set ids)).
Proof.
  unfold same_entities. rewrite fmap_app, !list_fmap_omap.
  unfold misses_of at 2.
  rewrite (omap_split (λ i, missed (c1 i))
             (λ i, unstamped <$> hit (c1 i)) (λ i, unstamped <$> db !! i)).
  - apply reflexive_eq, omap_ext_in. intros i Hi.
    rewrite elem_of_new_Set in Hi. rewrite twice_second_read by done.
    destruct (c1 i) as [y|] eqn:Hy.
    + destruct (st_settled i y Hi Hy) as [_ Hd]. simpl.
      by rewrite Hd, andb_false_r.
    + simpl. destruct (db !! i) as [r|] eqn:Hr; simpl; [|done].
      destruct (lookup_misses_plain _ _ _ lookups_plain Hr) as (_ & -> & ->).
      done.
  - intros i _. unfold missed, hit. destruct (c1 i) as [y|]; [|done].
    destruct (notFound y), (debounce y); done.
Qed.

End twice.

(** C2, as the code has it.  Take a cache with [cacheNotFound] enabled and a
    lookup collaborator that returns, under an id, an entity that carries
    this id and has no [notFound] or [debounce] property; a store in which
    the live objects of the requested ids carry their ids and none is a
    debounce marker; and a second call made before any object the first call
    read, or wrote, has expired.  Then the second call returns the entities
    the first call returned (up to the time stamp of cached copies, and up to
    order), calls the lookup collaborator not at all and leaves the store as
    the first call left it.  An append collaborator, if there is one, is
    taken to map result sets of the same entities to result sets of the same
    entities. *)
Theorem fetch_twice_returns_same_entities_without_lookup
    now1 now2 st (ids : list Z) :
  cacheNotFound_ = true →
  (∀ batch i x, lookupFn options batch None !! i = Some x → plain i x) →
  (∀ i x, i ∈ ids → Redis.get now1 st (entity_key i) = Some x →
          ident x = i ∧ debounce x = false) →
  (∀ i e, i ∈ ids → peek now1 st (entity_key i) = Some e → live now2 e.2 = true) →
  now2 < now1 + 1000 * ttl_ →
  (∀ f xs ys, appendFn options = Some f →
              same_entities xs ys → same_entities (f xs) (f ys)) →
  let f1 := array_fetch now1 st ids in
  let f2 := array_fetch now2 (store_after f1) ids in
  same_entities (returned f1) (returned f2)
  ∧ lookups f2 = []
  ∧ store_after f2 = store_after f1.
Proof.
  intros Hnf Hplain Hst Hlasts Hnow Happend.
  destruct (decide (ids = [])) as [->|Hids].
  { simpl. by unfold same_entities. }
  intros f1 f2.
  pose proof (twice_keyed now1 st ids Hst) as Hk1.
  pose proof (twice_keyed_again now1 now2 st ids Hnf Hplain Hst Hlasts Hnow) as Hk2.
  pose proof (twice_no_misses_again now1 now2 st ids Hnf Hplain Hst Hlasts Hnow)
    as Hm2.
  pose proof (twice_same_entities now1 now2 st ids Hnf Hplain Hst Hlasts Hnow)
    as Hsame.
  subst f1 f2. rewrite (fetch_no_misses now2 _ ids Hids Hk2 Hm2).
  cbn [returned lookups store_after]. split; [|done].
  rewrite (array_fetch_spec now1 st ids Hids Hk1) at 1.
  cbn [returned]. unfold append_results.
  destruct (appendFn options) as [f|] eqn:Hf; [by eapply Happend | done].
Qed.


(** *** Batches *)




(** *** The object view *)

Lemma object_index_lookup (rs : list T) (s : string) :
  foldl (λ o x, <[pretty (ident x) := x]> o) (∅ : gmap string T) rs !! s
  = keyed_by_identifier rs s.
Proof.
  unfold keyed_by_identifier. induction rs as [|x rs IH] using rev_ind; [done|].
  rewrite foldl_app, filter_app. cbn [foldl]. rewrite filter_cons, filter_nil.
  destruct (decide (pretty (ident x) = s)) as [<-|Hne].
  - by rewrite lookup_insert_eq, last_snoc.
  - rewrite lookup_insert_ne by done. by rewrite app_nil_r.
Qed.

Lemma keyed_by_identifier_elem_of (rs : list T) s x :
  keyed_by_identifier rs s = Some x → x ∈ rs ∧ s = pretty (ident x).
Proof.
  unfold keyed_by_identifier. intros Hlast.
  assert (x ∈ filter (λ y, pretty (ident y) = s) rs) as Hx.
  { destruct (filter _ rs) as [|y l] using rev_ind; [done|].
    rewrite last_snoc in Hlast. injection Hlast as ->.
    apply elem_of_app. right. left. }
  apply list_elem_of_filter in Hx as [<- Hx]. done.
Qed.

Lemma keyed_by_identifier_NoDup (rs : list T) x :
  NoDup (ident <$> rs) → x ∈ rs →
  keyed_by_identifier rs (pretty (ident x)) = Some x.
Proof.
  unfold keyed_by_identifier. intros Hnd Hx.
  apply list_elem_of_split in Hx as (l1 & l2 & ->).
  rewrite fmap_app, fmap_cons in Hnd. apply NoDup_app in Hnd as (_ & _ & Hnd).
  apply NoDup_cons in Hnd as [Hx _].
  rewrite filter_app, filter_cons, decide_True by done.
  assert (filter (λ y, pretty (ident y) = pretty (ident x)) l2 = []) as ->.
  { apply filter_none, Forall_forall. intros y Hy E.
    apply (inj pretty) in E. apply Hx. rewrite <- E.
    by apply list_elem_of_fmap_2. }
  apply last_snoc.
Qed.

(** C10.  The object view shares [bust] and [refresh] with the array view,
    and its [fetch] makes the reads, lookups and writes of the array view's
    [fetch] and returns the result set of the latter as a mapping from
    stringified identifier to entity; when the identifiers of the result set
    are distinct, the entities of the mapping are those of the result set,
    each under its own identifier. *)
Theorem object_view_rekeys_array_view :
  let cachedArray := createCachedArray CacheTTL_xs options in
  let cachedObject := createCachedObject CacheTTL_xs options in
  bust cachedObject = bust cachedArray
  ∧ refresh cachedObject = refresh cachedArray
  ∧ ∀ now st (ids : list Z),
      let a := fetch cachedArray now st ids in
      let o := fetch cachedObject now st ids in
      store_after o = store_after a ∧ lookups o = lookups a ∧ mGets o = mGets a
      ∧ (∀ s, returned o !! s = keyed_by_identifier (returned a) s)
      ∧ (∀ s x, returned o !! s = Some x → x ∈ returned a ∧ s = pretty (ident x))
      ∧ (NoDup (ident <$> returned a) →
         ∀ x, x ∈ returned a → returned o !! pretty (ident x) = Some x).
Proof.
  intros cachedArray cachedObject. split; [done|]. split; [done|].
  intros now st ids a o.
  assert (∀ s, returned o !! s = keyed_by_identifier (returned a) s) as Hview.
  { intros s. apply object_index_lookup. }
  split; [done|]. split; [done|]. split; [done|]. split; [exact Hview|]. split.
  - intros s x Hs. apply keyed_by_identifier_elem_of. by rewrite <- Hview.
  - intros Hnd x Hx. rewrite Hview. by apply keyed_by_identifier_NoDup.
Qed.

End array.

(** *** Negative caching *)

Section negative_caching.
Context {A : Type}.
Variable CacheTTL_xs : Z.
Variable options : CachedLookupOptions A.

Local Abbreviation entity_key := (CachedArray.entity_key options).
Local Abbreviation ttl_ := (CachedArray.ttl_ CacheTTL_xs options).
Local Abbreviation cacheNotFound_ := (CachedArray.cacheNotFound_ options).
Local Abbreviation array_fetch := (CachedArray.array_fetch CacheTTL_xs).


End negative_caching.

(** The lookup collaborator of the examples answers id by id, with plain
    entities. *)
Lemma lookup_users_by_id :
  answers_by_id Examples.user_cache (λ i, Examples.users !! i).
Proof.
  intros batch i. simpl. unfold Examples.lookup_users.
  rewrite map_lookup_filter.
  destruct (Examples.users !! i) as [x|], (decide (i ∈ batch));
    by simplify_option_eq.
Qed.

Lemma lookup_users_plain batch i x :
  lookupFn Examples.user_cache batch None !! i = Some x → plain i x.
Proof.
  rewrite lookup_users_by_id. case_decide; [|done]. unfold Examples.users.
  intros [[<- <-]|[_ [<- <-]%lookup_singleton_Some]]%lookup_insert_Some; done.
Qed.

(** C2 as stated fails with [cacheNotFound] disabled: user 2, whom the data
    store does not know, is looked up again by the second call. *)
Lemma fetch_twice_counterexample :
  let f1 := CachedArray.array_fetch Examples.xs Examples.user_cache_no_tombstones
              0 ∅ [2] in
  let f2 := CachedArray.array_fetch Examples.xs Examples.user_cache_no_tombstones
              0 (store_after f1) [2] in
  ¬ (returned f2 = returned f1 ∧ lookups f2 = []).
Proof. vm_compute. by intros [_ [=]]. Qed.

(** C2, amended, for two calls half a second apart on the empty store. *)
Lemma fetch_twice_returns_same_entities_without_lookup_witness :
  CachedArray.cacheNotFound_ Examples.user_cache = true
  ∧ 500 < 0 + 1000 * CachedArray.ttl_ Examples.xs Examples.user_cache
  ∧ let f1 := CachedArray.array_fetch Examples.xs Examples.user_cache 0 ∅
                [1; 2; 3; 2] in
    let f2 := CachedArray.array_fetch Examples.xs Examples.user_cache 500
                (store_after f1) [1; 2; 3; 2] in
    same_entities (returned f1) (returned f2)
    ∧ lookups f2 = []
    ∧ store_after f2 = store_after f1.
Proof.
  split; [reflexivity|]. split; [reflexivity|].
  apply (fetch_twice_returns_same_entities_without_lookup
           Examples.xs Examples.user_cache 0 500 ∅ [1; 2; 3; 2]).
  - reflexivity.
  - apply lookup_users_plain.
  - intros i x _. by rewrite (get_None 0 ∅) by apply lookup_empty.
  - intros i e _. by rewrite (peek_None 0 ∅) by apply lookup_empty.
  - reflexivity.
  - by intros f xs ys [=].
Defined.


(** C10 for three users fetched through the object view on the empty store:
    the two the data store knows are found under their identifiers. *)
Lemma object_view_rekeys_array_view_witness :
  let o := fetch (createCachedObject Examples.xs Examples.user_cache) 0 ∅ [1; 2; 3] in
  returned o !! "1" = Some (Examples.user 1 "A")
  ∧ returned o !! "2" = None
  ∧ returned o !! "3" = Some (Examples.user 3 "C").
Proof.
  destruct (object_view_rekeys_array_view Examples.xs Examples.user_cache)
    as (_ & _ & Hfetch).
  destruct (Hfetch 0 ∅ [1; 2; 3]) as (_ & _ & _ & Hview & _ & Hfound).
  intros o. split; [|split].
  - apply (Hfound ltac:(vm_compute; apply NoDup_ListNoDup; repeat constructor;
                        simpl; intuition discriminate)
             (Examples.user 1 "A")).
    vm_compute. left.
  - unfold o. rewrite Hview. vm_compute. reflexivity.
  - apply (Hfound ltac:(vm_compute; apply NoDup_ListNoDup; repeat constructor;
                        simpl; intuition discriminate)
             (Examples.user 3 "C")).
    vm_compute. right. left.
Defined.

(** C1 at the failing input: user 1 is busted at instant 1000 and fetched at
    instant 1500, five hundred milliseconds into a window of ten seconds. *)
Lemma fetch_after_bust_writes_the_looked_up_object_witness :
  lookupFn Examples.user_cache [1] None !! 1 = Some (Examples.user 1 "A")
  ∧ let st1 := CachedArray.array_bust Examples.user_cache 1000 ∅ (One 1) in
    let f := CachedArray.array_fetch Examples.xs Examples.user_cache 1500 st1 [1] in
    (1500 < 1000 + 1000 * CachedArray.debounceTime_ Examples.user_cache →
     Redis.get 1500 st1 (CachedArray.entity_key Examples.user_cache 1)
     = Some (debounce_marker 1))
    ∧ lookups f = [[1]]
    ∧ returned f = append_results Examples.user_cache [Examples.user 1 "A"]
    ∧ store_after f !! CachedArray.entity_key Examples.user_cache 1
      = Some (with_cachedAt (Examples.user 1 "A") 1500,
              Some (1500 + 1000 * CachedArray.ttl_ Examples.xs Examples.user_cache)).
Proof.
  split; [vm_compute; reflexivity|].
  apply (fetch_after_bust_writes_the_looked_up_object
           Examples.xs Examples.user_cache 1000 1500 ∅ 1 (Examples.user 1 "A")).
  vm_compute; reflexivity.
Defined.



(** With negative caching off, user 2 is looked up by each call, and is
    returned by the call that finds the data store knowing user 2. *)
Example fetch_without_tombstones_returns_what_the_lookup_has :
  let later : list Z → option bool → gmap Z (MixedObject string) :=
    λ _ _, {[ 2 := Examples.user 2 "B" ]} in
  let f1 := CachedArray.array_fetch Examples.xs Examples.user_cache_no_tombstones
              0 ∅ [2] in
  let f2 := CachedArray.array_fetch Examples.xs
              (with_lookupFn Examples.user_cache_no_tombstones later) 500
              (store_after f1) [2] in
  returned f1 = [] ∧ lookups f1 = [[2]] ∧ store_after f1 = ∅
  ∧ returned f2 = [Examples.user 2 "B"] ∧ lookups f2 = [[2]].
Proof. vm_compute. by repeat split. Qed.

(** C4 for a refresh of users 1 and 2 on the empty store. *)
Lemma refresh_stores_without_expiry_witness :
  lookupFn Examples.user_cache (to_array (Many [1; 2])) (Some true) !! 1
  = Some (Examples.user 1 "A")
  ∧ let st' := (CachedArray.array_refresh Examples.user_cache 0 ∅ (Many [1; 2])).1 in
    st' !! CachedArray.entity_key Examples.user_cache 1
    = Some (with_cachedAt (Examples.user 1 "A") 0, None)
    ∧ (∀ now', Redis.get now' st' (CachedArray.entity_key Examples.user_cache 1)
               = Some (with_cachedAt (Examples.user 1 "A") 0))
    ∧ (∀ r', Redis.get 0 (∅ : Redis.store (MixedObject string))
               (CachedArray.entity_key Examples.user_cache 1) = None →
             lookupFn Examples.user_cache [1] None !! 1 = Some r' →
             store_after (CachedArray.array_fetch Examples.xs Examples.user_cache 0 ∅ [1])
               !! CachedArray.entity_key Examples.user_cache 1
             = Some (with_cachedAt r' 0,
                     Some (0 + 1000 * CachedArray.ttl_ Examples.xs Examples.user_cache))).
Proof.
  split; [vm_compute; reflexivity|].
  apply (refresh_stores_without_expiry Examples.xs Examples.user_cache
           0 ∅ (Many [1; 2]) 1 (Examples.user 1 "A")).
  vm_compute; reflexivity.
Defined.

(** C5 for user 2, whom the data store does not know: [fetch([2])] reads the
    empty store, and another caller has cached user 2 by the time the writes
    are run. *)
Lemma fetch_expires_key_when_setNX_fails_witness :
  keyed Examples.user_cache 0 ∅ [2]
  ∧ CachedArray.cacheNotFound_ Examples.user_cache = true
  ∧ 2 ∈ misses_of Examples.user_cache 0 ∅ [2]
  ∧ CachedArray.lookup_misses Examples.user_cache
      (misses_of Examples.user_cache 0 ∅ [2]) !! 2 = None
  ∧ let ws := writes (CachedArray.fetch_plan Examples.xs Examples.user_cache 0
                        (CachedArray.read_cache Examples.user_cache 0 ∅ [2]) [2]) in
    (∃ before after,
       ws = before
            ++ [CSetNX (CachedArray.entity_key Examples.user_cache 2) (tombstone 2 0);
                CExpire (CachedArray.entity_key Examples.user_cache 2)
                  (CachedArray.ttl_ Examples.xs Examples.user_cache)]
            ++ after)
    ∧ ∀ st' x d,
        peek 0 st' (CachedArray.entity_key Examples.user_cache 2) = Some (x, d) →
        setNX 0 (CachedArray.entity_key Examples.user_cache 2) (tombstone 2 0) st' = st'
        ∧ foldl (exec 0) st' ws !! CachedArray.entity_key Examples.user_cache 2
          = Some (x, Some (0 + 1000 * CachedArray.ttl_ Examples.xs Examples.user_cache)).
Proof.
  assert (keyed Examples.user_cache 0 ∅ [2]) as Hkeyed.
  { intros i x _. vm_compute. discriminate. }
  assert (2 ∈ misses_of Examples.user_cache 0 ∅ [2]) as Hmiss.
  { vm_compute. left. }
  split; [exact Hkeyed|]. split; [reflexivity|]. split; [exact Hmiss|].
  split; [vm_compute; reflexivity|].
  apply (fetch_expires_key_when_setNX_fails Examples.xs Examples.user_cache
           0 ∅ [2] 2 Hkeyed eq_refl Hmiss).
  vm_compute; reflexivity.
Defined.

(** The writes of that call, run on the store in which user 2 is cached:
    the object stays and its deadline moves from instant 5000 to a minute
    from now. *)
Example fetch_expires_cached_user :
  foldl (exec 0) Examples.user_2_cached
    (writes (CachedArray.fetch_plan Examples.xs Examples.user_cache 0
               (CachedArray.read_cache Examples.user_cache 0 ∅ [2]) [2]))
  !! "user:2"
  = Some (with_cachedAt (Examples.user 2 "B") 0, Some 60000).
Proof. vm_compute. reflexivity. Qed.

(** The batches at the boundaries: 200 and 201 keys, 10000 and 10001 ids. *)
Example chunk_at_the_boundaries :
  let sizes (batches : list (list Z)) :=
    (λ batch, Z.of_nat (length batch)) <$> batches in
  sizes (chunk (seqZ 1 200) 200) = [200]
  ∧ sizes (chunk (seqZ 1 201) 200) = [200; 1]
  ∧ sizes (chunk (seqZ 1 10000) 10000) = [10000]
  ∧ sizes (chunk (seqZ 1 10001) 10000) = [10000; 1].
Proof. vm_compute. by repeat split. Qed.

Example fetch_201_ids_reads_two_batches :
  let f := CachedArray.array_fetch Examples.xs Examples.user_cache 0 ∅ (seqZ 1 201) in
  (λ batch, Z.of_nat (length batch)) <$> mGets f = [200; 1]
  ∧ (λ batch, Z.of_nat (length batch)) <$> lookups f = [201]
  ∧ returned f = [Examples.user 1 "A"; Examples.user 3 "C"].
Proof. vm_compute. by repeat split. Qed.

(** A marker that carries a [cachedAt] within the window does hold the
    looked-up object back: the key still holds the marker after the call. *)
Example fetch_holds_back_behind_stamped_marker :
  let marker := with_cachedAt (debounce_marker 1) 1000 in
  let st : Redis.store (MixedObject string) := {[ "user:1" := (marker, Some 11000) ]} in
  let f := CachedArray.array_fetch Examples.xs Examples.user_cache 1500 st [1] in
  returned f = [Examples.user 1 "A"] ∧ lookups f = [[1]]
  ∧ store_after f !! "user:1" = Some (marker, Some 11000).
Proof. vm_compute. by repeat split. Qed.

(** The first call returns the object the lookup returned and the second its
    cached copy, which carries a [cachedAt]. *)
Example fetch_twice_returns_stamped_copy :
  let f1 := CachedArray.array_fetch Examples.xs Examples.user_cache 0 ∅ [1] in
  let f2 := CachedArray.array_fetch Examples.xs Examples.user_cache 500
              (store_after f1) [1] in
  returned f1 = [Examples.user 1 "A"]
  ∧ returned f2 = [with_cachedAt (Examples.user 1 "A") 0]
  ∧ lookups f2 = [].
Proof. vm_compute. by repeat split. Qed.

(** After a [bust] the key holds a marker, which the set-if-not-exists of a
    tombstone leaves in place: user 2, whom the data store does not know, is
    looked up by each call for as long as the marker lives, and the [expire]
    of the first call makes that a minute instead of ten seconds. *)
Example fetch_after_bust_keeps_looking_up_unknown_id :
  let st1 := CachedArray.array_bust Examples.user_cache 0 ∅ (One 2) in
  let f1 := CachedArray.array_fetch Examples.xs Examples.user_cache 100 st1 [2] in
  let f2 := CachedArray.array_fetch Examples.xs Examples.user_cache 200
              (store_after f1) [2] in
  lookups f1 = [[2]] ∧ lookups f2 = [[2]]
  ∧ st1 !! "user:2" = Some (debounce_marker 2, Some 10000)
  ∧ store_after f2 !! "user:2" = Some (debounce_marker 2, Some 60200).
Proof. vm_compute. by repeat split. Qed.

End ArraySpec.

(** * Further properties *)

(** ** The counter cache: zero, expiry, [clear] and increments *)

Module CounterMore.
Import Redis RedisFacts JSNumber JSNumberFacts CachedCounter CounterSpec.

Section counter.
Variable CacheTTL_hour : Z.
Variable rootKey : string.
Variable fetchFn : option (id → Z).
Variable options : CachedCounterOptions.

Local Abbreviation get := (get CacheTTL_hour rootKey fetchFn options).
Local Abbreviation incrementBy := (incrementBy CacheTTL_hour rootKey fetchFn options).
Local Abbreviation clear := (clear rootKey).
Local Abbreviation ttl_ := (ttl_ CacheTTL_hour options).
Local Abbreviation key := (counter_key rootKey).

(** What a miss stores and returns, and the calls it makes. *)
Local Abbreviation fetched i :=
  (match fetchFn with Some f => Number (f i) | None => 0 end).
Local Abbreviation calls :=
  (match fetchFn with Some _ => 1%nat | None => 0%nat end).

Implicit Types (st : Redis.store Z) (now : Z) (i : id).

Lemma get_miss_full now st i :
  default 0 (Redis.get now st (key i)) = 0 →
  get now st i = (fetched i, Redis.set now (key i) (fetched i) (Some ttl_) st, calls).
Proof. apply get_miss. Qed.

Lemma get_set_dead now now' k (n : Z) s st :
  now + 1000 * s ≤ now' → Redis.get now' (Redis.set now k n (Some s) st) k = None.
Proof.
  intros Hle. unfold Redis.get, peek. rewrite lookup_set, decide_True by done.
  simpl. by rewrite bool_decide_eq_false_2 by lia.
Qed.

Lemma get_set_live now now' k (n : Z) s st :
  now' < now + 1000 * s → Redis.get now' (Redis.set now k n (Some s) st) k = Some n.
Proof.
  intros Hlt. eapply get_Some; [by rewrite lookup_set, decide_True|].
  simpl. by apply bool_decide_eq_true.
Qed.

(** X1.  A cached zero is a miss.  When the key of a counter holds nothing or
    zero and the fetch collaborator answers zero (or there is none), [get]
    returns zero after calling the collaborator, and leaves a store in which
    the key again holds nothing or zero at every instant: no later [get] is
    served from the cache. *)
Theorem get_never_caches_zero now st i :
  default 0 (Redis.get now st (key i)) = 0 →
  fetched i = 0 →
  let '(count, st1, n) := get now st i in
  count = 0 ∧ n = calls
  ∧ ∀ now', default 0 (Redis.get now' st1 (key i)) = 0
            ∧ (get now' st1 i).2 = calls.
Proof.
  intros Hmiss Hzero. rewrite (get_miss_full now st i Hmiss). rewrite Hzero.
  split; [done|]. split; [done|]. intros now'.
  assert (default 0 (Redis.get now' (Redis.set now (key i) 0 (Some ttl_) st) (key i))
          = 0) as Hagain.
  { unfold Redis.get, peek. rewrite lookup_set, decide_True by done. simpl.
    by destruct (bool_decide _). }
  split; [done|]. by rewrite (get_miss_full now' _ i Hagain).
Qed.

(** X2.  A miss that fetches a non-zero count is served from the cache for
    [ttl] seconds, without a call to the collaborator and without a write;
    from then on the key has expired and [get] calls the collaborator
    again. *)
Theorem get_serves_fetched_count_until_ttl now st i :
  default 0 (Redis.get now st (key i)) = 0 →
  fetched i ≠ 0 →
  let st1 := (get now st i).1.2 in
  (∀ now', now' < now + 1000 * ttl_ → get now' st1 i = (fetched i, st1, 0%nat))
  ∧ (∀ now', now + 1000 * ttl_ ≤ now' →
       get now' st1 i
       = (fetched i, Redis.set now' (key i) (fetched i) (Some ttl_) st1, calls)).
Proof.
  intros Hmiss Hn. rewrite (get_miss_full now st i Hmiss). cbn [fst snd]. split.
  - intros now' Hlt.
    rewrite (get_hit _ rootKey fetchFn _ now' _ i (fetched i)); [|by apply get_set_live|done].
    by rewrite (Number_fetched fetchFn).
  - intros now' Hle. apply get_miss_full. by rewrite get_set_dead.
Qed.

(** X3.  [clear] deletes the key of the counter and no other: the next [get],
    whenever it runs, is a miss that asks the collaborator (or takes zero)
    and stores the answer with the configured expiry. *)
Theorem get_after_clear_fetches_again now st i :
  clear st i !! key i = None
  ∧ (∀ k, k ≠ key i → clear st i !! k = st !! k)
  ∧ get now (clear st i) i
    = (fetched i, Redis.set now (key i) (fetched i) (Some ttl_) (clear st i), calls).
Proof.
  split; [apply lookup_del|]. split.
  - intros k Hk. by apply lookup_del_ne.
  - apply get_miss_full. unfold CachedCounter.clear.
    by rewrite (get_None now _ _ (lookup_del _ _)).
Qed.

(** X4.  Take a counter whose cached integer, if it has one, is an integer a
    double holds, as every integer up to [2 ^ 53] in magnitude is.  A [get]
    that follows [incrementBy] at once returns the value [incrementBy]
    returned, from the cache, when that value is not zero; when the increment
    brought the counter to zero, the [get] is a miss and replaces the counter
    by what the collaborator answers. *)
Theorem get_after_incrementBy now st i amount :
  0 < ttl_ →
  (∀ n, Redis.get now st (key i) = Some n → Number n = n) →
  let '(value, st2, _) := incrementBy now st i amount in
  (value ≠ 0 → get now st2 i = (value, st2, 0%nat))
  ∧ (value = 0 →
     get now st2 i
     = (fetched i, Redis.set now (key i) (fetched i) (Some ttl_) st2, calls)).
Proof.
  intros Httl Hdouble.
  assert (∃ stored, Redis.get now (get now st i).1.2 (key i) = Some stored
                    ∧ stored = (get now st i).1.1) as (stored & Hpop & Hread).
  { destruct (decide (default 0 (Redis.get now st (key i)) = 0)) as [E|E].
    - rewrite (get_miss_full now st i E). cbn [fst snd]. exists (fetched i).
      split; [|done]. apply get_set_live. lia.
    - destruct (Redis.get now st (key i)) as [n|] eqn:G; [|done].
      rewrite (get_hit _ rootKey fetchFn _ now st i n G E). cbn [fst snd].
      exists n. split; [done|]. symmetry. by apply Hdouble. }
  unfold CachedCounter.incrementBy.
  destruct (get now st i) as [[previous st1] n]. cbn [fst snd] in Hpop, Hread.
  subst stored.
  pose proof (get_incrBy now st1 _ _ (default 1 amount) Hpop) as Hincr.
  unfold add. split.
  - intros Hv. apply get_hit; [done|]. by rewrite Number_eq_0 in Hv.
  - intros Hv. apply get_miss_full. rewrite Hincr. simpl.
    by apply Number_eq_0.
Qed.

(** X5.  With a positive [ttl], [incrementBy] does not prolong a cached
    counter: on a hit the key keeps the deadline it had; only on a miss,
    where [get] stores the count first, does the key get the configured
    expiry. *)
Theorem incrementBy_keeps_deadline now st i amount :
  0 < ttl_ →
  (∀ n d, peek now st (key i) = Some (n, d) → n ≠ 0 →
     (incrementBy now st i amount).1.2 !! key i
     = Some (n + default 1 amount, d))
  ∧ (default 0 (Redis.get now st (key i)) = 0 →
     (incrementBy now st i amount).1.2 !! key i
     = Some (fetched i + default 1 amount, Some (now + 1000 * ttl_))).
Proof.
  intros Httl. split.
  - intros n d Hpeek Hn.
    assert (Redis.get now st (key i) = Some n) as Hget
      by (unfold Redis.get; by rewrite Hpeek).
    unfold CachedCounter.incrementBy. rewrite (get_hit _ _ _ _ now st i n Hget Hn).
    cbn [fst snd]. unfold incrBy. rewrite Hpeek. apply lookup_insert_eq.
  - intros Hmiss. unfold CachedCounter.incrementBy.
    rewrite (get_miss_full now st i Hmiss). cbn [fst snd]. unfold incrBy.
    rewrite (peek_set now now); [apply lookup_insert_eq|].
    by apply live_fresh.
Qed.

End counter.

(** X1 for a counter of views nobody has counted yet. *)
Lemma get_never_caches_zero_witness :
  default 0 (Redis.get 0 (∅ : Redis.store Z) (counter_key "views" (Num 5))) = 0
  ∧ (λ _ : id, 0) (Num 5) = 0
  ∧ let '(count, st1, n) :=
      CachedCounter.get 3600 "views" (Some (λ _, 0)) {| ttl := None |} 0 ∅ (Num 5) in
    count = 0 ∧ n = 1%nat
    ∧ ∀ now', default 0 (Redis.get now' st1 (counter_key "views" (Num 5))) = 0
              ∧ (CachedCounter.get 3600 "views" (Some (λ _, 0)) {| ttl := None |}
                   now' st1 (Num 5)).2 = 1%nat.
Proof.
  split; [reflexivity|]. split; [reflexivity|].
  apply (get_never_caches_zero 3600 "views" (Some (λ _, 0)) {| ttl := None |}
           0 ∅ (Num 5)); reflexivity.
Defined.

(** X2 for a counter that the collaborator puts at 7. *)
Lemma get_serves_fetched_count_until_ttl_witness :
  default 0 (Redis.get 0 (∅ : Redis.store Z) (counter_key "views" (Num 5))) = 0
  ∧ (λ _ : id, 7) (Num 5) ≠ 0
  ∧ let st1 := (CachedCounter.get 3600 "views" (Some (λ _, 7)) {| ttl := None |}
                  0 ∅ (Num 5)).1.2 in
    (∀ now', now' < 0 + 1000 * 3600 →
       CachedCounter.get 3600 "views" (Some (λ _, 7)) {| ttl := None |} now' st1 (Num 5)
       = (7, st1, 0%nat))
    ∧ (∀ now', 0 + 1000 * 3600 ≤ now' →
         CachedCounter.get 3600 "views" (Some (λ _, 7)) {| ttl := None |} now' st1 (Num 5)
         = (7, Redis.set now' (counter_key "views" (Num 5)) 7 (Some 3600) st1, 1%nat)).
Proof.
  split; [reflexivity|]. split; [done|].
  apply (get_serves_fetched_count_until_ttl 3600 "views" (Some (λ _, 7))
           {| ttl := None |} 0 ∅ (Num 5)); [reflexivity | done].
Defined.

(** X4 for an increment by 3 of a counter that holds 4. *)
Lemma get_after_incrementBy_witness :
  let st : Redis.store Z := {[ "views:5" := (4, Some 5000) ]} in
  0 < CachedCounter.ttl_ 3600 {| ttl := None |}
  ∧ (∀ n, Redis.get 0 st (counter_key "views" (Num 5)) = Some n → Number n = n)
  ∧ let '(value, st2, _) :=
      CachedCounter.incrementBy 3600 "views" (Some (λ _, 7)) {| ttl := None |}
        0 st (Num 5) (Some 3) in
    (value ≠ 0 →
     CachedCounter.get 3600 "views" (Some (λ _, 7)) {| ttl := None |} 0 st2 (Num 5)
     = (value, st2, 0%nat))
    ∧ (value = 0 →
       CachedCounter.get 3600 "views" (Some (λ _, 7)) {| ttl := None |} 0 st2 (Num 5)
       = (7, Redis.set 0 (counter_key "views" (Num 5)) 7
               (Some (CachedCounter.ttl_ 3600 {| ttl := None |})) st2, 1%nat)).
Proof.
  intros st.
  assert (∀ n, Redis.get 0 st (counter_key "views" (Num 5)) = Some n → Number n = n)
    as Hdouble.
  { intros n. vm_compute. intros [= <-]. reflexivity. }
  split; [reflexivity|]. split; [exact Hdouble|].
  apply (get_after_incrementBy 3600 "views" (Some (λ _, 7)) {| ttl := None |}
           0 st (Num 5) (Some 3)); [reflexivity | exact Hdouble].
Defined.

(** X5 for the same counter. *)
Lemma incrementBy_keeps_deadline_witness :
  0 < CachedCounter.ttl_ 3600 {| ttl := None |}
  ∧ (∀ n d, peek 0 (∅ : Redis.store Z) (counter_key "views" (Num 5)) = Some (n, d) →
       n ≠ 0 →
       (CachedCounter.incrementBy 3600 "views" (Some (λ _, 7)) {| ttl := None |}
          0 ∅ (Num 5) (Some 3)).1.2 !! counter_key "views" (Num 5)
       = Some (n + default 1 (Some 3), d))
  ∧ (default 0 (Redis.get 0 (∅ : Redis.store Z) (counter_key "views" (Num 5))) = 0 →
     (CachedCounter.incrementBy 3600 "views" (Some (λ _, 7)) {| ttl := None |}
        0 ∅ (Num 5) (Some 3)).1.2 !! counter_key "views" (Num 5)
     = Some (7 + default 1 (Some 3),
             Some (0 + 1000 * CachedCounter.ttl_ 3600 {| ttl := None |}))).
Proof.
  split; [reflexivity|].
  apply (incrementBy_keeps_deadline 3600 "views" (Some (λ _, 7)) {| ttl := None |}
           0 ∅ (Num 5) (Some 3)).
  reflexivity.
Defined.

(** Where the cached integer is no double the [get] that follows reads
    another value than [incrementBy] returned: with [2 ^ 53 + 1] cached and
    an amount of 2, [incrementBy] returns [2 ^ 53 + 2], the store holds
    [2 ^ 53 + 3] and [get] reads [2 ^ 53 + 4]. *)
Example incrementBy_then_get_beyond_doubles :
  let st : Redis.store Z := {[ "views:5" := (9007199254740993, None) ]} in
  let '(value, st2, _) :=
    CachedCounter.incrementBy 3600 "views" (Some (λ _, 7)) {| ttl := None |}
      0 st (Num 5) (Some 2) in
  value = 9007199254740994
  ∧ Redis.get 0 st2 "views:5" = Some 9007199254740995
  ∧ (CachedCounter.get 3600 "views" (Some (λ _, 7)) {| ttl := None |} 0 st2 (Num 5)).1.1
    = 9007199254740996.
Proof. vm_compute. by repeat split. Qed.

End CounterMore.

(** ** The query cache: hits, expiry and tags *)

Module QueryCacheMore.
Import Redis RedisFacts QueryCache QueryCacheSpec.

Section queryCache.
Context {Query Row : Type}.
Variable hash : Query → string.
Variable db : Query → list Row.

Local Abbreviation queryCache := (queryCache hash db).
Local Abbreviation cache_key := (cache_key hash).

Implicit Types (st : Redis.store (value Row)) (now : Z) (k t : string).
Implicit Types (options : option cachedQueryOptions) (secs : Z).

(** *** Adding to a tag set *)

Lemma sAdd_other now st st' t k key :
  sAdd now t k st = Some st' → t ≠ key → st' !! key = st !! key.
Proof.
  unfold sAdd. intros E Hne.
  destruct (peek now st t) as [[[rows|s] d]|]; simplify_eq;
    by rewrite lookup_insert_ne.
Qed.

Lemma sAdd_changes now st st' t k key :
  sAdd now t k st = Some st' →
  st' !! key = st !! key ∨ ∃ s d, st' !! key = Some (Members s, d).
Proof.
  intros E. destruct (decide (t = key)) as [<-|Hne];
    [|left; by eapply sAdd_other].
  right. unfold sAdd in E.
  destruct (peek now st t) as [[[rows|s] d]|]; simplify_eq;
    rewrite lookup_insert_eq; eauto.
Qed.

Lemma sAdd_keeps_members now st st' t k key ks k0 :
  sAdd now t k st = Some st' →
  sMembers now st key = Some ks → k0 ∈ ks →
  ∃ ks', sMembers now st' key = Some ks' ∧ k0 ∈ ks'.
Proof.
  intros E Hks Hk0. destruct (decide (t = key)) as [<-|Hne].
  - unfold sAdd in E. unfold sMembers, Redis.get in Hks.
    destruct (peek now st t) as [[[rows|s] d]|] eqn:P; simplify_eq/=.
    + apply peek_inv in P as [_ L]. unfold sMembers.
      erewrite get_Some; [| by rewrite lookup_insert_eq | done].
      eexists. split; [done|]. apply elem_of_elements.
      apply elem_of_elements in Hk0. set_solver.
    + by apply elem_of_nil in Hk0.
  - exists ks. split; [|done]. rewrite <- Hks. unfold sMembers.
    by rewrite (get_ext now st' st key (sAdd_other _ _ _ _ _ _ E Hne)).
Qed.

Lemma tagCacheKey_loop_other now tags st st' k key :
  tagCacheKey_loop now k tags st = Some st' →
  key ∉ tag_key <$> tags → st' !! key = st !! key.
Proof.
  revert st. induction tags as [|t tags IH]; intros st E Hkey; simpl in E.
  - by simplify_eq.
  - destruct (sAdd now (tag_key t) k st) as [st1|] eqn:E1; [|done]. simpl in E.
    rewrite fmap_cons, not_elem_of_cons in Hkey. destruct Hkey as [Hne Hkey].
    rewrite (IH st1 E Hkey). eapply sAdd_other; [done|]. congruence.
Qed.

Lemma tagCacheKey_loop_changes now tags st st' k key :
  tagCacheKey_loop now k tags st = Some st' →
  st' !! key = st !! key ∨ ∃ s d, st' !! key = Some (Members s, d).
Proof.
  revert st. induction tags as [|t tags IH]; intros st E; simpl in E.
  - left. by simplify_eq.
  - destruct (sAdd now (tag_key t) k st) as [st1|] eqn:E1; [|done]. simpl in E.
    destruct (IH st1 E) as [Hsame|?]; [|by right].
    rewrite Hsame. by eapply sAdd_changes.
Qed.

Lemma tagCacheKey_loop_keeps_members now tags st st' k key ks k0 :
  tagCacheKey_loop now k tags st = Some st' →
  sMembers now st key = Some ks → k0 ∈ ks →
  ∃ ks', sMembers now st' key = Some ks' ∧ k0 ∈ ks'.
Proof.
  revert st ks. induction tags as [|t tags IH]; intros st ks E Hks Hk0; simpl in E.
  - simplify_eq. eauto.
  - destruct (sAdd now (tag_key t) k st) as [st1|] eqn:E1; [|done]. simpl in E.
    destruct (sAdd_keeps_members _ _ _ _ _ _ _ _ E1 Hks Hk0) as (ks1 & Hks1 & Hk1).
    by eapply IH.
Qed.

Lemma tagCacheKey_loop_members now tags st st' k t :
  tagCacheKey_loop now k tags st = Some st' → t ∈ tags →
  ∃ ks, sMembers now st' (tag_key t) = Some ks ∧ k ∈ ks.
Proof.
  revert st. induction tags as [|t' tags IH]; intros st E Ht; simpl in E.
  - by apply elem_of_nil in Ht.
  - destruct (sAdd now (tag_key t') k st) as [st1|] eqn:E1; [|done]. simpl in E.
    destruct (decide (t ∈ tags)) as [Hin|Hin]; [by eapply IH|].
    apply elem_of_cons in Ht as [->|]; [|done].
    destruct (sAdd_member _ _ _ _ _ E1) as (ks1 & Hks1 & Hk1).
    by eapply tagCacheKey_loop_keeps_members.
Qed.

(** X6.  When the store accepts it, [tagCacheKey(key, tags)] leaves [key] a
    member of the set of every tag listed, keeps every member a set had, and
    changes no key other than those of the tags listed. *)
Theorem tagCacheKey_adds_key_to_each_tag now st st' k tag :
  tagCacheKey now st k tag = Some st' →
  (∀ t, t ∈ to_array tag → ∃ ks, sMembers now st' (tag_key t) = Some ks ∧ k ∈ ks)
  ∧ (∀ key ks k0, sMembers now st key = Some ks → k0 ∈ ks →
       ∃ ks', sMembers now st' key = Some ks' ∧ k0 ∈ ks')
  ∧ (∀ key, key ∉ tag_key <$> to_array tag → st' !! key = st !! key).
Proof.
  unfold tagCacheKey. intros E. split; [|split].
  - intros t Ht. by eapply tagCacheKey_loop_members.
  - intros key ks k0. by eapply tagCacheKey_loop_keeps_members.
  - intros key. by eapply tagCacheKey_loop_other.
Qed.

(** *** Hits and expiry *)

(** X7.  A hit returns what the cache holds: when the cache key holds rows
    and the call does not bypass the cache, [queryCache] returns these rows
    without executing the query, whatever the data store would answer, and
    leaves the store as it is; the tags of the call, if any, are not
    registered. *)
Theorem queryCache_hit_returns_cached_rows key version now st query options rows :
  Redis.get now st (cache_key key version query) = Some (Packed rows) →
  ttl <$> options ≠ Some 0 →
  queryCache key version now st query options = Some (rows, st, 0%nat).
Proof.
  intros Hget Httl. unfold QueryCache.queryCache.
  rewrite bool_decide_eq_false_2 by done. unfold packed_get. rewrite Hget. simpl.
  by rewrite bool_decide_eq_true_2.
Qed.

(** What a miss that the store accepts leaves under the cache key: the rows
    of the query with the deadline of the call, unless a tag of the call has
    the cache key for its own key. *)
Lemma queryCache_miss_store key version now st query options rows st1 n :
  ttl <$> options ≠ Some 0 →
  packed_get now st (cache_key key version query) = Some None →
  queryCache key version now st query options = Some (rows, st1, n) →
  rows = db query ∧ n = 1%nat
  ∧ ∃ st0,
      st0 = set now (cache_key key version query) (Packed (db query))
              (ttl <$> options) st
      ∧ (if tag_given options
         then tagCacheKey now st0 (cache_key key version query)
                (default (One EmptyString) (tag <$> options))
         else Some st0) = Some st1.
Proof.
  intros Httl Hmiss. unfold QueryCache.queryCache.
  rewrite bool_decide_eq_false_2 by done. rewrite Hmiss. simpl.
  destruct (if tag_given options then _ else _) as [st'|] eqn:Htag; [|done].
  simpl. intros [= <- <- <-]. eauto.
Qed.

(** X8.  The rows of a miss that the store accepts are served for [ttl]
    seconds, to every call with the same cache key that does not bypass the
    cache, without the query being executed or the store changed.  After
    that the entry has expired: a call that returns has executed the
    query. *)
Theorem queryCache_serves_rows_until_ttl
    key version now st query options rows st1 n :
  ttl <$> options ≠ Some 0 →
  packed_get now st (cache_key key version query) = Some None →
  queryCache key version now st query options = Some (rows, st1, n) →
  rows = db query ∧ n = 1%nat
  ∧ (∀ now' options',
       now ≤ now' →
       (∀ secs, ttl <$> options = Some secs → now' < now + 1000 * secs) →
       ttl <$> options' ≠ Some 0 →
       queryCache key version now' st1 query options' = Some (db query, st1, 0%nat))
  ∧ (∀ now' (options' : option cachedQueryOptions) secs rows' st2 n',
       ttl <$> options = Some secs → now + 1000 * secs ≤ now' →
       queryCache key version now' st1 query options' = Some (rows', st2, n') →
       rows' = db query ∧ n' = 1%nat).
Proof.
  intros Httl Hmiss Hrun.
  destruct (queryCache_miss_store _ _ _ _ _ _ _ _ _ Httl Hmiss Hrun)
    as (-> & -> & st0 & Hst0 & Htag).
  set (cacheKey := cache_key key version query) in *.
  set (d := (λ s, now + 1000 * s) <$> (ttl <$> options)).
  assert (st0 !! cacheKey = Some (Packed (db query), d)) as Hentry.
  { rewrite Hst0, lookup_set. by rewrite decide_True. }
  split; [done|]. split; [done|]. split.
  - intros now' options' Hnow Hlive Httl'.
    assert (live now' d = true) as Hlive'.
    { unfold d. destruct (ttl <$> options) as [secs|]; [|done]. simpl.
      apply bool_decide_eq_true. by apply Hlive. }
    assert (Redis.get now' st1 cacheKey = Some (Packed (db query))) as Hget.
    { eapply get_Some; [|exact Hlive'].
      destruct (tag_given options); [|by simplify_eq].
      rewrite <- Hentry. unfold tagCacheKey in Htag.
      eapply tagCacheKey_loop_keeps_packed; [done|].
      apply peek_Some; [done|]. simpl. by apply (live_mono now' now). }
    unfold QueryCache.queryCache. rewrite bool_decide_eq_false_2 by done.
    fold cacheKey. unfold packed_get. rewrite Hget. simpl.
    by rewrite bool_decide_eq_true_2.
  - intros now' options' secs rows' st2 n' Ht Hnow'.
    assert (∀ rows0, Redis.get now' st1 cacheKey ≠ Some (Packed rows0)) as Hnot.
    { intros rows0 Hget.
      assert (st1 !! cacheKey = st0 !! cacheKey
              ∨ ∃ s d', st1 !! cacheKey = Some (Members s, d')) as [Hsame|Hset].
      { destruct (tag_given options); [|left; by simplify_eq].
        unfold tagCacheKey in Htag. by eapply tagCacheKey_loop_changes. }
      - rewrite Hentry in Hsame. unfold Redis.get, peek in Hget.
        rewrite Hsame in Hget. unfold d in Hget. rewrite Ht in Hget. simpl in Hget.
        by rewrite bool_decide_eq_false_2 in Hget by lia.
      - destruct Hset as (s & d' & Hset). unfold Redis.get, peek in Hget.
        rewrite Hset in Hget. simpl in Hget. by destruct (live now' d'). }
    unfold QueryCache.queryCache. case_bool_decide; [by intros [= <- <- <-]|].
    fold cacheKey. unfold packed_get.
    destruct (Redis.get now' st1 cacheKey) as [[rows0|s]|] eqn:Hget; simpl;
      [by destruct (Hnot rows0) | done |].
    destruct (if tag_given options' then _ else _); simpl; [|done].
    by intros [= <- <- <-].
Qed.

(** *** Busting tags *)

Lemma bustCacheTag_loop_deletes now (tags : list string) st acc st' deleted :
  bustCacheTag_loop now tags st acc = Some (st', deleted) →
  ∃ dels, deleted = acc ++ dels
          ∧ st' = foldl (λ st key, del key st) st dels
          ∧ ∀ t, t ∈ tags → tag_key t ∈ dels.
Proof.
  revert st acc. induction tags as [|t tags IH]; intros st acc E; simpl in E.
  - injection E as <- <-. exists []. rewrite app_nil_r. split; [done|].
    split; [done|]. intros t Ht. by apply elem_of_nil in Ht.
  - destruct (sMembers now st (tag_key t)) as [keys|]; [|done]. simpl in E.
    destruct (IH _ _ E) as (dels & -> & -> & Htags).
    exists (keys ++ [tag_key t] ++ dels). split; [by rewrite <- !app_assoc|].
    split; [by rewrite !foldl_app|].
    intros t' [->|Ht']%elem_of_cons.
    + rewrite !elem_of_app, list_elem_of_singleton. tauto.
    + rewrite !elem_of_app. auto.
Qed.

(** X9.  [bustCacheTag] only deletes.  When the store accepts the call, the
    store it leaves is the one it found without the keys it asked to delete,
    among which is the key of every tag listed; every other key holds what it
    held, and no key holds anything it did not hold before. *)
Theorem bustCacheTag_only_deletes now st tag st' deleted :
  bustCacheTag now st tag = Some (st', deleted) →
  st' = foldl (λ st key, del key st) st deleted
  ∧ (∀ t, t ∈ to_array tag → tag_key t ∈ deleted ∧ st' !! tag_key t = None)
  ∧ (∀ key, key ∈ deleted → st' !! key = None)
  ∧ (∀ key, key ∉ deleted → st' !! key = st !! key)
  ∧ (∀ key e, st' !! key = Some e → st !! key = Some e).
Proof.
  unfold bustCacheTag. intros E.
  destruct (bustCacheTag_loop_deletes _ _ _ _ _ _ E) as (dels & -> & -> & Htags).
  simpl. split; [done|].
  assert (∀ key, key ∈ dels → foldl (λ st key, del key st) st dels !! key = None)
    as Hgone.
  { intros key Hkey. by rewrite foldl_del_lookup, decide_True. }
  split; [|split; [done|split]].
  - intros t Ht. split; [by apply Htags | by apply Hgone, Htags].
  - intros key Hkey. by rewrite foldl_del_lookup, decide_False.
  - intros key e. rewrite foldl_del_lookup. by case_decide.
Qed.

Lemma sAdd_undated now st st' t k :
  sAdd now t k st = Some st' →
  (∀ s d, peek now st t = Some (Members s, d) → d = None) →
  ∃ s, st' !! t = Some (Members s, None) ∧ k ∈ s.
Proof.
  unfold sAdd. intros E Hd.
  destruct (peek now st t) as [[[rows|s] d]|] eqn:P; simplify_eq.
  - rewrite (Hd s d eq_refl). eexists. rewrite lookup_insert_eq.
    split; [done|]. set_solver.
  - eexists. rewrite lookup_insert_eq. split; [done|]. set_solver.
Qed.

(** X10.  A result cached under a tag is gone once the tag is busted.  Take a
    call of [queryCache] with a tag [T] that misses and that the store
    accepts, the set of [T] being absent or without a deadline, as
    [tagCacheKey] creates it.  Whenever [bustCacheTag(T)] then runs, the
    store accepts it and it deletes the cache key; and a call of [queryCache]
    with that cache key that returns after that, whenever it runs, has
    executed the query. *)
Theorem queryCache_executes_again_after_bustCacheTag
    key version now st query T secs rows st1 n :
  T ≠ EmptyString → secs ≠ 0 →
  packed_get now st (cache_key key version query) = Some None →
  (∀ s d, st !! tag_key T = Some (Members s, d) → d = None) →
  queryCache key version now st query (Some {| ttl := secs; tag := One T |})
  = Some (rows, st1, n) →
  ∀ now2, ∃ st2 deleted,
    bustCacheTag now2 st1 (One T) = Some (st2, deleted)
    ∧ cache_key key version query ∈ deleted
    ∧ st2 !! cache_key key version query = None
    ∧ ∀ now3 options' rows' st3 n',
        queryCache key version now3 st2 query options' = Some (rows', st3, n') →
        rows' = db query ∧ n' = 1%nat.
Proof.
  intros HT Hsecs Hmiss Hundated Hrun now2.
  destruct (queryCache_miss_store key version now st query
              (Some {| ttl := secs; tag := One T |}) rows st1 n)
    as (_ & _ & st0 & Hst0 & Htag); [by intros [=] | done | done |].
  set (cacheKey := cache_key key version query) in *.
  assert (tag_given (Some {| ttl := secs; tag := One T |}) = true) as Hgiven.
  { simpl. by destruct T. }
  rewrite Hgiven in Htag. unfold tagCacheKey in Htag. simpl in Htag.
  destruct (sAdd now (tag_key T) cacheKey st0) as [st1'|] eqn:Hadd; [|done].
  simpl in Htag. injection Htag as ->.
  destruct (sAdd_undated _ _ _ _ _ Hadd) as (s & Hset & Hin).
  { intros s d [Hp _]%peek_inv. rewrite Hst0, lookup_set in Hp.
    case_decide; [done|]. by eapply Hundated. }
  assert (sMembers now2 st1 (tag_key T) = Some (elements s)) as Hmembers.
  { unfold sMembers. by rewrite (get_Some now2 _ _ _ _ Hset eq_refl). }
  assert (cacheKey ∈ elements s) as Hin' by (by apply elem_of_elements).
  assert (del (tag_key T) (foldl (λ st key, del key st) st1 (elements s))
            !! cacheKey = None) as Hgone.
  { destruct (decide (tag_key T = cacheKey)) as [E|Hne].
    - rewrite <- E. apply lookup_del.
    - rewrite lookup_del_ne by done. by rewrite foldl_del_lookup, decide_True. }
  eexists _, _. split; [|split; [|split]].
  - unfold bustCacheTag. simpl. rewrite Hmembers. simpl. reflexivity.
  - simpl. apply elem_of_app. by left.
  - exact Hgone.
  - intros now3 options' rows' st3 n'. by apply queryCache_miss.
Qed.

End queryCache.

(** X6 for a cache key registered under two tags on the empty store. *)
Lemma tagCacheKey_adds_key_to_each_tag_witness :
  ∃ st' : Redis.store (value Z),
    tagCacheKey 0 ∅ "q:banned" (Many ["T"; "U"]) = Some st'
    ∧ (∀ t, t ∈ to_array (Many ["T"; "U"]) →
         ∃ ks, sMembers 0 st' (tag_key t) = Some ks ∧ "q:banned" ∈ ks)
    ∧ (∀ key ks k0, sMembers (Row:=Z) 0 ∅ key = Some ks → k0 ∈ ks →
         ∃ ks', sMembers 0 st' key = Some ks' ∧ k0 ∈ ks')
    ∧ (∀ key, key ∉ tag_key <$> to_array (Many ["T"; "U"]) →
         st' !! key = (∅ : Redis.store (value Z)) !! key).
Proof.
  eexists. split; [reflexivity|].
  apply (tagCacheKey_adds_key_to_each_tag 0 ∅ _ "q:banned" (Many ["T"; "U"])).
  reflexivity.
Defined.

(** X7 for the cached result of the query ["active"]. *)
Lemma queryCache_hit_returns_cached_rows_witness :
  Redis.get 5 Examples.two_tagged (QueryCache.cache_key Examples.hash "q" None "active")
  = Some (Packed [1; 2])
  ∧ ttl <$> Some Examples.tagged ≠ Some 0
  ∧ QueryCache.queryCache Examples.hash Examples.db "q" None 5 Examples.two_tagged
      "active" (Some Examples.tagged)
    = Some ([1; 2], Examples.two_tagged, 0%nat).
Proof.
  assert (ttl <$> Some Examples.tagged ≠ Some 0) as Httl by (by intros [=]).
  split; [vm_compute; reflexivity|]. split; [exact Httl|].
  apply (queryCache_hit_returns_cached_rows Examples.hash Examples.db
           "q" None 5 Examples.two_tagged "active" (Some Examples.tagged) [1; 2]);
    [vm_compute; reflexivity | exact Httl].
Defined.

(** X8 for the query ["active"] on the empty store. *)
Lemma queryCache_serves_rows_until_ttl_witness :
  ∃ st1 : Redis.store (value Z),
    ttl <$> Some Examples.tagged ≠ Some 0
    ∧ packed_get (Row:=Z) 0 ∅ (QueryCache.cache_key Examples.hash "q" None "active")
      = Some None
    ∧ QueryCache.queryCache Examples.hash Examples.db "q" None 0 ∅ "active"
        (Some Examples.tagged) = Some ([1; 2], st1, 1%nat)
    ∧ ([1; 2] = Examples.db "active" ∧ 1%nat = 1%nat
       ∧ (∀ now' options',
            0 ≤ now' →
            (∀ secs, ttl <$> Some Examples.tagged = Some secs → now' < 0 + 1000 * secs) →
            ttl <$> options' ≠ Some 0 →
            QueryCache.queryCache Examples.hash Examples.db "q" None now' st1
              "active" options' = Some (Examples.db "active", st1, 0%nat))
       ∧ (∀ now' (options' : option cachedQueryOptions) secs rows' st2 n',
            ttl <$> Some Examples.tagged = Some secs → 0 + 1000 * secs ≤ now' →
            QueryCache.queryCache Examples.hash Examples.db "q" None now' st1
              "active" options' = Some (rows', st2, n') →
            rows' = Examples.db "active" ∧ n' = 1%nat)).
Proof.
  assert (ttl <$> Some Examples.tagged ≠ Some 0) as Httl by (by intros [=]).
  eexists. split; [exact Httl|]. split; [reflexivity|].
  assert (∀ P Q : Prop, P → (P → Q) → P ∧ Q) as Hboth by tauto.
  apply Hboth; [vm_compute; reflexivity|]. intros Hrun.
  exact (queryCache_serves_rows_until_ttl Examples.hash Examples.db
           "q" None 0 ∅ "active" (Some Examples.tagged) _ _ _
           Httl eq_refl Hrun).
Defined.

(** X9 for the bust of tag ["T"] on the store that holds two results tagged
    ["T"]. *)
Lemma bustCacheTag_only_deletes_witness :
  ∃ st' deleted,
    bustCacheTag 5 Examples.two_tagged (One "T") = Some (st', deleted)
    ∧ st' = foldl (λ st key, del key st) Examples.two_tagged deleted
    ∧ (∀ t, t ∈ to_array (One "T") → tag_key t ∈ deleted ∧ st' !! tag_key t = None)
    ∧ (∀ key, key ∈ deleted → st' !! key = None)
    ∧ (∀ key, key ∉ deleted → st' !! key = Examples.two_tagged !! key)
    ∧ (∀ key e, st' !! key = Some e → Examples.two_tagged !! key = Some e).
Proof.
  eexists _, _. split; [vm_compute; reflexivity|].
  apply (bustCacheTag_only_deletes 5 Examples.two_tagged (One "T")).
  vm_compute; reflexivity.
Defined.

(** X10 for the query ["active"], cached under tag ["T"] on the empty
    store. *)
Lemma queryCache_executes_again_after_bustCacheTag_witness :
  ∃ st1 : Redis.store (value Z),
    "T" ≠ EmptyString ∧ 60 ≠ 0
    ∧ packed_get (Row:=Z) 0 ∅ (QueryCache.cache_key Examples.hash "q" None "active")
      = Some None
    ∧ (∀ s d, (∅ : Redis.store (value Z)) !! tag_key "T" = Some (Members s, d) →
              d = None)
    ∧ QueryCache.queryCache Examples.hash Examples.db "q" None 0 ∅ "active"
        (Some {| ttl := 60; tag := One "T" |}) = Some ([1; 2], st1, 1%nat)
    ∧ ∀ now2, ∃ st2 deleted,
        bustCacheTag now2 st1 (One "T") = Some (st2, deleted)
        ∧ QueryCache.cache_key Examples.hash "q" None "active" ∈ deleted
        ∧ st2 !! QueryCache.cache_key Examples.hash "q" None "active" = None
        ∧ ∀ now3 options' rows' st3 n',
            QueryCache.queryCache Examples.hash Examples.db "q" None now3 st2
              "active" options' = Some (rows', st3, n') →
            rows' = Examples.db "active" ∧ n' = 1%nat.
Proof.
  eexists. split; [done|]. split; [done|]. split; [reflexivity|].
  split; [by intros s d; rewrite lookup_empty|].
  assert (∀ P Q : Prop, P → (P → Q) → P ∧ Q) as Hboth by tauto.
  apply Hboth; [vm_compute; reflexivity|]. intros Hrun.
  apply (queryCache_executes_again_after_bustCacheTag Examples.hash Examples.db
           "q" None 0 ∅ "active" "T" 60 [1; 2] _ 1%nat); try done.
Defined.

End QueryCacheMore.

(** ** The entity cache: hits, frames, [bust], [refresh] and expiry *)

Module ArrayMore.
Import Redis RedisFacts Batches CachedArray Outcome Invariant ArraySpec.

Section array.
Context {A : Type}.
Variable CacheTTL_xs : Z.
Variable options : CachedLookupOptions A.

Local Abbreviation T := (MixedObject A).
Local Abbreviation entity_key := (entity_key options).
Local Abbreviation ttl_ := (ttl_ CacheTTL_xs options).
Local Abbreviation debounceTime_ := (debounceTime_ options).
Local Abbreviation cacheNotFound_ := (cacheNotFound_ options).
Local Abbreviation read_cache := (read_cache options).
Local Abbreviation read_batches := (read_batches options).
Local Abbreviation sort_ids := (sort_ids options).
Local Abbreviation lookup_misses := (lookup_misses options).
Local Abbreviation write_back := (write_back CacheTTL_xs options).
Local Abbreviation fetch_plan := (fetch_plan CacheTTL_xs options).
Local Abbreviation array_fetch := (array_fetch CacheTTL_xs options).
Local Abbreviation array_bust := (array_bust options).
Local Abbreviation array_refresh := (array_refresh options).

Implicit Types (st : Redis.store T) (now : Z) (i j : Z) (x : T) (k : string).
Implicit Types (ids : list Z) (id : one_or_many Z).

(** *** Requests that the cache answers *)



(** *** What [fetch] leaves alone *)

Lemma elem_of_Set_add i j (s : list Z) : i ∈ Set_add j s → i = j ∨ i ∈ s.
Proof.
  unfold Set_add. case_decide; [by right|].
  rewrite elem_of_app, list_elem_of_singleton. tauto.
Qed.

Lemma sort_id_misses (cache : gmap Z T) cutoff (s : sorted) (l : list Z) i :
  i ∈ cacheMisses (foldl (sort_id cache cutoff) s l) → i ∈ cacheMisses s ∨ i ∈ l.
Proof.
  revert s. induction l as [|j l IH]; intros s; [by left|]. cbn [foldl].
  intros [Hs|Hl]%IH; [|right; by right].
  unfold sort_id in Hs. destruct (cache !! j) as [y|]; simpl in Hs.
  - destruct (notFound y); [by left|]. destruct (debounce y); [|by left].
    simpl in Hs. apply elem_of_Set_add in Hs as [->|?]; [right; left | by left].
  - apply elem_of_Set_add in Hs as [->|?]; [right; left | by left].
Qed.

Lemma sort_ids_misses now (cacheArray : list T) ids i :
  i ∈ cacheMisses (sort_ids now cacheArray ids) → i ∈ ids.
Proof.
  unfold CachedArray.sort_ids. cbv zeta.
  intros [Hi|Hi]%sort_id_misses; [by apply elem_of_nil in Hi|].
  by apply elem_of_new_Set.
Qed.

Lemma omap_fst_subseteq (f : Z → option (Z * T)) (l : list Z) i :
  (∀ j e, f j = Some e → e.1 = j) → i ∈ (omap f l).*1 → i ∈ l.
Proof.
  intros Hf. rewrite (fst_omap_keyed f l Hf). by intros [_ ?]%list_elem_of_filter.
Qed.

Lemma fetch_plan_keys now (cacheArray : list T) ids (c : command A) :
  c ∈ writes (fetch_plan now cacheArray ids) →
  ∃ i, i ∈ ids ∧ command_key c = entity_key i.
Proof.
  unfold CachedArray.fetch_plan. cbv zeta.
  pose proof (sort_ids_misses now cacheArray ids) as Hmisses.
  destruct (cacheMisses (sort_ids now cacheArray ids)) as [|j misses] eqn:E;
    cbn [writes]; [by intros ?%elem_of_nil|].
  rewrite (foldl_merge_id options). cbn [results' toCache toCacheNotFound app].
  intros (i & Hkey & Hi)%(write_back_keys CacheTTL_xs options).
  exists i. split; [|done]. apply Hmisses.
  destruct Hi as [Hi|Hi].
  - eapply omap_fst_subseteq; [|exact Hi]. apply to_cache_fst.
  - destruct (CachedArray.cacheNotFound_ options); [|by apply elem_of_nil in Hi].
    eapply omap_fst_subseteq; [|exact Hi]. apply to_cache_not_found_fst.
Qed.

(** X12.  [fetch] writes under the keys of the ids it was asked for and
    under no other; and when the live objects of these ids carry their ids,
    it leaves alone the key of every id that it found cached, as an object or
    as a tombstone. *)
Theorem fetch_leaves_other_keys_alone now st ids :
  (∀ k, (∀ i, i ∈ ids → entity_key i ≠ k) →
        store_after (array_fetch now st ids) !! k = st !! k)
  ∧ (keyed options now st ids →
     ∀ i x, i ∈ ids → Redis.get now st (entity_key i) = Some x →
            missed (Some x) = false →
            store_after (array_fetch now st ids) !! entity_key i
            = st !! entity_key i).
Proof.
  split.
  - intros k Hk. unfold CachedArray.array_fetch.
    destruct ids as [|i0 ids']; [done|]. cbn [store_after].
    apply foldl_exec_other, Forall_forall.
    intros c (i & Hi & ->)%fetch_plan_keys. by apply Hk.
  - intros Hkeyed i x Hi Hx Hhit. unfold CachedArray.array_fetch.
    destruct ids as [|i0 ids']; [done|]. cbn [store_after].
    apply (run_other CacheTTL_xs options now st (i0 :: ids') Hkeyed).
    intros j Hj ->%entity_key_inj. unfold misses_of in Hj.
    apply list_elem_of_filter in Hj as [Hj _]. rewrite Hx, Hhit in Hj.
    by destruct Hj.
Qed.

(** X13.  Asking for an id more than once changes nothing but the multi-get:
    on a store whose live objects of the requested ids carry their ids,
    [fetch(ids)] returns what [fetch] returns for the distinct ids, makes the
    same lookups and leaves the same store. *)
Theorem fetch_ignores_duplicates now st ids :
  keyed options now st ids →
  let f := array_fetch now st ids in
  let g := array_fetch now st (new_Set ids) in
  returned f = returned g ∧ lookups f = lookups g
  ∧ store_after f = store_after g.
Proof.
  intros Hkeyed.
  destruct (decide (ids = [])) as [->|Hids]; [done|].
  assert (new_Set ids ≠ []) as Hids' by (by intros ?%new_Set_nil_inv).
  assert (keyed options now st (new_Set ids)) as Hkeyed'.
  { intros i x Hi. rewrite elem_of_new_Set in Hi. by apply Hkeyed. }
  assert (new_Set (new_Set ids) = new_Set ids) as Hidem
    by apply new_Set_id, new_Set_NoDup.
  assert (misses_of options now st (new_Set ids) = misses_of options now st ids)
    as Hmisses by (unfold misses_of; by rewrite Hidem).
  assert (held_of options now st (new_Set ids) = held_of options now st ids)
    as Hheld by (unfold held_of; by rewrite Hidem).
  intros f g. subst f g.
  rewrite (array_fetch_spec CacheTTL_xs options now st ids Hids Hkeyed).
  rewrite (array_fetch_spec CacheTTL_xs options now st (new_Set ids) Hids' Hkeyed').
  cbn [returned lookups store_after].
  rewrite (fetch_plan_spec CacheTTL_xs options now st ids Hkeyed).
  rewrite (fetch_plan_spec CacheTTL_xs options now st (new_Set ids) Hkeyed').
  by rewrite Hmisses, Hheld, Hidem.
Qed.

(** *** [bust] *)

Lemma array_bust_foldl now st id :
  array_bust now st id =
  foldl (λ st i, Redis.set now (entity_key i) (debounce_marker i)
                   (Some debounceTime_) st)
        st (to_array id).
Proof. unfold CachedArray.array_bust. by destruct (to_array id). Qed.

Lemma bust_lookup_marker now st id i :
  i ∈ to_array id →
  array_bust now st id !! entity_key i
  = Some (debounce_marker i, Some (now + 1000 * debounceTime_)).
Proof.
  rewrite array_bust_foldl. generalize (to_array id). intros l.
  induction l as [|j l IH] using rev_ind; [by intros ?%elem_of_nil|].
  intros Hi. rewrite foldl_app. cbn [foldl]. rewrite lookup_set.
  destruct (decide (entity_key j = entity_key i)) as [->%entity_key_inj|Hne];
    [done|].
  apply IH. apply elem_of_app in Hi as [Hi|Hi]; [done|].
  by apply list_elem_of_singleton in Hi as ->.
Qed.

Lemma bust_lookup_other now st id k :
  k ∉ entity_key <$> to_array id → array_bust now st id !! k = st !! k.
Proof.
  rewrite array_bust_foldl. generalize (to_array id). intros l.
  induction l as [|j l IH] using rev_ind; [done|].
  rewrite fmap_app, not_elem_of_app. intros [Hl Hj].
  rewrite foldl_app. cbn [foldl]. rewrite lookup_set_ne; [by apply IH|].
  intros <-. apply Hj. left.
Qed.


(** *** [refresh] *)

Lemma refresh_lookup_other now st id k :
  (∀ i, entity_key i = k →
        lookupFn options (to_array id) (Some true) !! i = None ∧ i ∉ to_array id) →
  (array_refresh now st id).1 !! k = st !! k.
Proof.
  intros Hk. unfold CachedArray.array_refresh. cbn [fst].
  rewrite foldl_del_other.
  - apply (foldl_set_other options now st _ (λ y, with_cachedAt y now) None).
    apply Forall_forall. intros [i y] Hin%elem_of_map_to_list E. simpl in *.
    destruct (Hk i E) as [Hnone _]. congruence.
  - apply Forall_forall. intros i [_ Hi]%list_elem_of_filter E.
    by destruct (Hk i E).
Qed.

(** X15.  What [refresh] leaves under the key of an id: the object the
    lookup collaborator returned for it, stamped and without a deadline;
    nothing when the id was asked for and the collaborator returned nothing;
    and what the key held when the id was neither asked for nor returned.
    Keys that are not keys of ids are left alone. *)
Theorem refresh_replaces_or_removes now st id :
  let results := lookupFn options (to_array id) (Some true) in
  let st' := (array_refresh now st id).1 in
  (∀ i r, results !! i = Some r →
          st' !! entity_key i = Some (with_cachedAt r now, None))
  ∧ (∀ i, results !! i = None → i ∈ to_array id → st' !! entity_key i = None)
  ∧ (∀ i, results !! i = None → i ∉ to_array id →
          st' !! entity_key i = st !! entity_key i)
  ∧ (∀ k, (∀ i, entity_key i ≠ k) → st' !! k = st !! k).
Proof.
  intros results st'. split; [|split; [|split]].
  - intros i r. apply refresh_lookup_written.
  - intros i Hr Hi. by apply refresh_lookup_removed.
  - intros i Hr Hi. apply refresh_lookup_other.
    by intros j ->%entity_key_inj.
  - intros k Hk. apply refresh_lookup_other. intros i E. by destruct (Hk i).
Qed.


(** *** Expiry *)

(** X17.  What [fetch] caches for an id, the object the lookup collaborator
    returned or a tombstone, lasts [ttl] seconds: a [fetch] of the id that
    runs [ttl] seconds after the first one or later asks the lookup
    collaborator again. *)
Theorem fetch_looks_up_again_after_ttl now now' st X :
  Redis.get now st (entity_key X) = None →
  is_Some (lookupFn options [X] None !! X) ∨ cacheNotFound_ = true →
  now + 1000 * ttl_ ≤ now' →
  let f1 := array_fetch now st [X] in
  (∃ x, store_after f1 !! entity_key X = Some (x, Some (now + 1000 * ttl_)))
  ∧ Redis.get now' (store_after f1) (entity_key X) = None
  ∧ lookups (array_fetch now' (store_after f1) [X]) = [[X]].
Proof.
  intros Hget Hcached Hnow' f1.
  assert (∃ x, store_after f1 !! entity_key X = Some (x, Some (now + 1000 * ttl_)))
    as [x Hx].
  { destruct (lookupFn options [X] None !! X) as [r|] eqn:Hr.
    - destruct (fetch_one_looked_up CacheTTL_xs options now st X r)
        as (_ & _ & Hst); [by rewrite Hget..|done|]. eauto.
    - destruct Hcached as [[? [=]]|Hnf].
      destruct (fetch_one_not_found CacheTTL_xs options now st X)
        as (_ & _ & Hst & _); [by rewrite Hget..|done|]. eauto. }
  assert (Redis.get now' (store_after f1) (entity_key X) = None) as Hget'.
  { unfold Redis.get, peek. rewrite Hx. simpl.
    by rewrite bool_decide_eq_false_2 by lia. }
  split; [eauto|]. split; [done|].
  destruct (lookupFn options [X] None !! X) as [r|] eqn:Hr.
  - destruct (fetch_one_looked_up CacheTTL_xs options now' (store_after f1) X r)
      as (_ & ? & _); [by rewrite Hget'..|done|done].
  - destruct (fetch_one_not_found CacheTTL_xs options now' (store_after f1) X)
      as (_ & ? & _); [by rewrite Hget'..|done|done].
Qed.

(** *** Identifiers *)

Lemma ident_omap_keyed (f : Z → option T) (l : list Z) :
  (∀ i x, f i = Some x → ident x = i) →
  ident <$> omap f l = filter (λ i, is_Some (f i)) l.
Proof.
  intros Hf. induction l as [|i l IH]; [done|]. csimpl.
  rewrite filter_cons. destruct (f i) as [x|] eqn:E; csimpl.
  - rewrite IH. f_equal. by apply Hf.
  - done.
Qed.

Lemma lookup_misses_ident (misses : list Z) i x :
  (∀ batch j y, lookupFn options batch None !! j = Some y → ident y = j) →
  lookup_misses misses !! i = Some x → ident x = i.
Proof.
  intros Hlook. unfold CachedArray.lookup_misses.
  generalize (lookup_batches misses). intros batches. revert x.
  induction batches as [|batch batches IH] using rev_ind; intros x.
  - simpl. by rewrite lookup_empty.
  - rewrite foldl_app. cbn [foldl].
    intros [Hx|[_ Hx]]%lookup_union_Some_raw; [by eapply Hlook | by apply IH].
Qed.

(** X18.  [fetch] returns at most one entity per id, and entities of
    requested ids only.  On a store whose live objects of the requested ids
    carry their ids, with a lookup collaborator that returns under an id an
    entity that carries it and without an append collaborator, the
    identifiers of the entities returned are distinct and are among the ids
    asked for, however often an id was asked for. *)
Theorem fetch_returns_one_entity_per_id now st ids :
  keyed options now st ids →
  (∀ batch i x, lookupFn options batch None !! i = Some x → ident x = i) →
  appendFn options = None →
  let f := array_fetch now st ids in
  NoDup (ident <$> returned f) ∧ ∀ x, x ∈ returned f → ident x ∈ ids.
Proof.
  intros Hkeyed Hlook Happend f. subst f.
  destruct (decide (ids = [])) as [->|Hids].
  { split; [apply NoDup_nil_2 | by intros x ?%elem_of_nil]. }
  rewrite (array_fetch_spec CacheTTL_xs options now st ids Hids Hkeyed).
  cbn [returned]. unfold append_results. rewrite Happend.
  assert (ident <$> omap (λ i, hit (Redis.get now st (entity_key i))) (new_Set ids)
          = filter (λ i, is_Some (hit (Redis.get now st (entity_key i))))
              (new_Set ids)) as Hhits.
  { assert (∀ i, i ∈ new_Set ids → i ∈ ids) as Hsub
      by (intros i; by rewrite elem_of_new_Set).
    revert Hsub. generalize (new_Set ids). intros l Hsub.
    induction l as [|i l IH]; [done|]. csimpl. rewrite filter_cons.
    assert (∀ j, j ∈ l → j ∈ ids) as Hsub' by (intros j Hj; apply Hsub; by right).
    destruct (hit (Redis.get now st (entity_key i))) as [x|] eqn:E; csimpl;
      [|by apply IH].
    rewrite (IH Hsub'). f_equal. unfold hit in E.
    destruct (Redis.get now st (entity_key i)) as [y|] eqn:Hy; [|done].
    destruct (notFound y || debounce y); [done|]. injection E as <-.
    apply (Hkeyed i y); [apply Hsub; left | done]. }
  assert (ident <$> omap (λ i, lookup_misses (misses_of options now st ids) !! i)
                      (misses_of options now st ids)
          = filter (λ i, is_Some (lookup_misses (misses_of options now st ids) !! i))
              (misses_of options now st ids)) as Hlooked.
  { apply ident_omap_keyed. intros i x. by apply lookup_misses_ident. }
  assert (∀ i, i ∈ ident <$> (omap (λ i, hit (Redis.get now st (entity_key i)))
                                (new_Set ids)
                              ++ omap (λ i, lookup_misses
                                              (misses_of options now st ids) !! i)
                                   (misses_of options now st ids)) → i ∈ ids)
    as Hsub.
  { intros i. rewrite fmap_app, Hhits, Hlooked.
    intros [[_ Hi]%list_elem_of_filter|[_ Hi]%list_elem_of_filter]%elem_of_app.
    - by apply elem_of_new_Set.
    - unfold misses_of in Hi. apply list_elem_of_filter in Hi as [_ Hi].
      by apply elem_of_new_Set. }
  split.
  - rewrite fmap_app, Hhits, Hlooked.
    apply NoDup_app. split; [apply NoDup_filter, new_Set_NoDup|].
    split; [|apply NoDup_filter, NoDup_filter, new_Set_NoDup].
    intros i [Hhit _]%list_elem_of_filter [_ Hm]%list_elem_of_filter.
    unfold misses_of in Hm. apply list_elem_of_filter in Hm as [Hm _].
    unfold hit, missed in *.
    destruct (Redis.get now st (entity_key i)) as [y|]; [|by destruct Hhit].
    destruct (notFound y), (debounce y); simpl in *;
      first [by destruct Hhit | by destruct Hm].
  - intros x Hx. apply Hsub. by apply list_elem_of_fmap_2.
Qed.

(** *** The invariant *)

(** X19.  The cache keeps its objects under the keys of their ids.  With a
    lookup collaborator that returns under an id an entity that carries it,
    [fetch], [bust] and [refresh] each leave a store in which every object
    under the key of an id carries that id, when they found such a store. *)
Theorem operations_keep_well_keyed now st :
  well_keyed options st →
  (∀ batch fromWrite i x,
     lookupFn options batch fromWrite !! i = Some x → ident x = i) →
  (∀ ids, well_keyed options (store_after (array_fetch now st ids)))
  ∧ (∀ id, well_keyed options (array_bust now st id))
  ∧ (∀ id, well_keyed options (array_refresh now st id).1).
Proof.
  intros Hwk Hlook. split; [|split].
  - intros ids j x d.
    destruct (decide (ids = [])) as [->|Hids]; [apply Hwk|].
    assert (keyed options now st ids) as Hkeyed.
    { intros i y _. unfold Redis.get. intros Hy.
      destruct (peek now st (entity_key i)) as [[y' d']|] eqn:Hp; [|done].
      simpl in Hy. injection Hy as ->. apply peek_inv in Hp as [Hp _].
      by eapply Hwk. }
    assert (store_after (array_fetch now st ids)
            = foldl (exec now) st
                (writes (fetch_plan now (read_cache now st ids) ids))) as ->.
    { unfold CachedArray.array_fetch. by destruct ids. }
    destruct (decide (j ∈ misses_of options now st ids)) as [Hj|Hj].
    + destruct (lookup_misses (misses_of options now st ids) !! j) as [r|] eqn:Hr.
      * destruct (decide (j ∈ held_of options now st ids)) as [Hd|Hd].
        -- rewrite (run_other CacheTTL_xs options now st ids Hkeyed); [apply Hwk|].
           intros i Hi ->%entity_key_inj. left. by rewrite Hr.
        -- rewrite (run_cached CacheTTL_xs options now st ids Hkeyed st j r);
             [|done..].
           intros [= <- _]. simpl.
           exact (lookup_misses_ident _ j r (λ batch, Hlook batch None) Hr).
      * destruct (CachedArray.cacheNotFound_ options) eqn:Hnf.
        -- rewrite (run_not_found CacheTTL_xs options now st ids Hkeyed st j);
             [|done..].
           destruct (peek now st (entity_key j)) as [[y d']|] eqn:Hp.
           ++ intros [= <- _]. apply peek_inv in Hp as [Hp _]. by eapply Hwk.
           ++ by intros [= <- _].
        -- rewrite (run_other CacheTTL_xs options now st ids Hkeyed); [apply Hwk|].
           intros i Hi ->%entity_key_inj. by right.
    + rewrite (run_other CacheTTL_xs options now st ids Hkeyed); [apply Hwk|].
      by intros i Hi ->%entity_key_inj.
  - intros id j x d. destruct (decide (j ∈ to_array id)) as [Hj|Hj].
    + rewrite (bust_lookup_marker now st id j Hj). by intros [= <- _].
    + rewrite bust_lookup_other; [apply Hwk|].
      intros (i & ->%entity_key_inj & Hi)%list_elem_of_fmap. done.
  - intros id j x d.
    destruct (lookupFn options (to_array id) (Some true) !! j) as [r|] eqn:Hr.
    + rewrite (refresh_lookup_written options now st id j r Hr).
      intros [= <- _]. simpl. by eapply Hlook.
    + destruct (decide (j ∈ to_array id)) as [Hj|Hj].
      * by rewrite (refresh_lookup_removed options now st id j Hj Hr).
      * rewrite refresh_lookup_other; [apply Hwk|].
        by intros i ->%entity_key_inj.
Qed.

End array.


Lemma empty_store_keyed now ids :
  keyed Examples.user_cache now (∅ : Redis.store (MixedObject string)) ids.
Proof. intros i x _. by rewrite (get_None now ∅) by apply lookup_empty. Qed.

Lemma lookup_users_ident batch fromWrite i x :
  lookupFn Examples.user_cache batch fromWrite !! i = Some x → ident x = i.
Proof. intros Hx. by destruct (lookup_users_plain batch i x Hx). Qed.


(** X13 for a request that names user 1 twice, on the empty store. *)
Lemma fetch_ignores_duplicates_witness :
  keyed Examples.user_cache 0 (∅ : Redis.store (MixedObject string)) [1; 2; 1]
  ∧ let f := CachedArray.array_fetch Examples.xs Examples.user_cache 0 ∅ [1; 2; 1] in
    let g := CachedArray.array_fetch Examples.xs Examples.user_cache 0 ∅
               (new_Set [1; 2; 1]) in
    returned f = returned g ∧ lookups f = lookups g
    ∧ store_after f = store_after g.
Proof.
  split; [apply empty_store_keyed|].
  apply (fetch_ignores_duplicates Examples.xs Examples.user_cache 0 ∅ [1; 2; 1]).
  apply empty_store_keyed.
Defined.



(** X17 for user 2, whom the data store does not know, a minute after the
    tombstone was written. *)
Lemma fetch_looks_up_again_after_ttl_witness :
  Redis.get 0 (∅ : Redis.store (MixedObject string))
    (CachedArray.entity_key Examples.user_cache 2) = None
  ∧ (is_Some (lookupFn Examples.user_cache [2] None !! 2)
     ∨ CachedArray.cacheNotFound_ Examples.user_cache = true)
  ∧ 0 + 1000 * CachedArray.ttl_ Examples.xs Examples.user_cache ≤ 60000
  ∧ let f1 := CachedArray.array_fetch Examples.xs Examples.user_cache 0 ∅ [2] in
    (∃ x, store_after f1 !! CachedArray.entity_key Examples.user_cache 2
          = Some (x, Some (0 + 1000 * CachedArray.ttl_ Examples.xs Examples.user_cache)))
    ∧ Redis.get 60000 (store_after f1)
        (CachedArray.entity_key Examples.user_cache 2) = None
    ∧ lookups (CachedArray.array_fetch Examples.xs Examples.user_cache 60000
                 (store_after f1) [2]) = [[2]].
Proof.
  assert (0 + 1000 * CachedArray.ttl_ Examples.xs Examples.user_cache ≤ 60000)
    as Hnow by (by vm_compute).
  split; [reflexivity|]. split; [by right|]. split; [exact Hnow|].
  apply (fetch_looks_up_again_after_ttl Examples.xs Examples.user_cache
           0 60000 ∅ 2); [reflexivity | by right | exact Hnow].
Defined.

(** X18 for a request that names user 1 twice, on the empty store. *)
Lemma fetch_returns_one_entity_per_id_witness :
  keyed Examples.user_cache 0 (∅ : Redis.store (MixedObject string)) [1; 2; 1; 3]
  ∧ appendFn Examples.user_cache = None
  ∧ let f := CachedArray.array_fetch Examples.xs Examples.user_cache 0 ∅
               [1; 2; 1; 3] in
    NoDup (ident <$> returned f) ∧ ∀ x, x ∈ returned f → ident x ∈ [1; 2; 1; 3].
Proof.
  split; [apply empty_store_keyed|]. split; [reflexivity|].
  apply (fetch_returns_one_entity_per_id Examples.xs Examples.user_cache
           0 ∅ [1; 2; 1; 3]).
  - apply empty_store_keyed.
  - intros batch. apply (lookup_users_ident batch None).
  - reflexivity.
Defined.

(** X19 for the cache of users, from the empty store. *)
Lemma operations_keep_well_keyed_witness :
  well_keyed Examples.user_cache (∅ : Redis.store (MixedObject string))
  ∧ (∀ ids, well_keyed Examples.user_cache
              (store_after (CachedArray.array_fetch Examples.xs Examples.user_cache
                              0 ∅ ids)))
  ∧ (∀ id, well_keyed Examples.user_cache
             (CachedArray.array_bust Examples.user_cache 0 ∅ id))
  ∧ (∀ id, well_keyed Examples.user_cache
             (CachedArray.array_refresh Examples.user_cache 0 ∅ id).1).
Proof.
  assert (well_keyed Examples.user_cache (∅ : Redis.store (MixedObject string)))
    as Hwk by (intros i x d; by rewrite lookup_empty).
  split; [exact Hwk|].
  exact (operations_keep_well_keyed Examples.xs Examples.user_cache 0 ∅
           Hwk lookup_users_ident).
Defined.

End ArrayMore.
